(** * ISS Mimic Mini: panel discovery, panel rotation and view presets

    A shallow embedding of the two components of the viewer,
    [components/Model.tsx] (the model adapter) and [components/Scene.tsx]
    (the scene controller), and the properties of their state transitions.

    - [JS] holds the fragments of the JavaScript runtime the components rely
      on: strings with [toLowerCase] and [includes], plain objects used as
      ordered property records, JSON values and exceptions.
    - [Model] embeds the discovery effect and the two rotation effects.
    - [Scene] embeds the controller state, its event handlers and what it
      keeps in the local storage.
    - [App] passes the rotation map of the controller to the adapter. *)

From Stdlib Require Import ZArith Ascii String Reals Lra.
From stdpp Require Import base tactics option list strings pretty gmap.

Set Warnings "-register-all,-clear-no-such-hyp".

Module JS.

(** ** Strings *)

(** [String.prototype.toLowerCase] on one character.  Names are kept as
    byte strings (UTF-8), and lower-casing is modelled on the letters
    [A]-[Z].  The component only asks whether the lower-cased name includes
    one of four lower-case ASCII words; lower-casing a character outside
    ASCII yields characters outside ASCII, but for the dotted capital I
    (an [i] followed by a combining dot) and the Kelvin sign (a [k]), and
    neither can take part in an occurrence of one of the four words. *)
Definition lower_ascii (c : ascii) : ascii :=
  let n := nat_of_ascii c in
  if (65 <=? n)%nat && (n <=? 90)%nat then ascii_of_nat (n + 32) else c.

Fixpoint toLowerCase (s : string) : string :=
  match s with
  | EmptyString => EmptyString
  | String c s' => String (lower_ascii c) (toLowerCase s')
  end.

(** [s.startsWith(pat)] and [s.includes(pat)]. *)
Fixpoint startsWith (s pat : string) {struct pat} : bool :=
  match pat, s with
  | EmptyString, _ => true
  | String _ _, EmptyString => false
  | String p pat', String c s' =>
      if decide (c = p) then startsWith s' pat' else false
  end.

Fixpoint includes (s pat : string) : bool :=
  startsWith s pat ||
  match s with
  | EmptyString => false
  | String _ s' => includes s' pat
  end.

(** An occurrence of [pat] in [s], as a decomposition of [s]. *)
Definition occurs (pat s : string) : Prop :=
  ∃ pre post, s = pre +:+ pat +:+ post.

(** The reading of "contains, case-insensitively": some substring of the
    name equals the word once the case of letters is ignored. *)
Definition contains_ignoring_case (name word : string) : Prop :=
  ∃ pre mid post,
    name = pre +:+ mid +:+ post ∧ toLowerCase mid = toLowerCase word.

(** A list of names without its repetitions, first occurrences kept in
    place. *)
Fixpoint firstOccurrences (l : list string) : list string :=
  match l with
  | [] => []
  | n :: l' => n :: filter (λ m, m ≠ n) (firstOccurrences l')
  end.

(** ** Plain objects as property records

    An object literal that is filled by assignments [o[k] = v] keeps its
    string keys in the order of their first assignment; [Object.keys] and
    [Object.entries] enumerate in that order.  (Keys that are canonical
    array indices would be enumerated first; no key that discovery builds
    is one, see [ModelFacts.discovered_name_has_letter].)  A record holds
    the own data properties.  The members an object inherits from
    [Object.prototype] (among them [__proto__], which an assignment would
    not turn into an own property) are met where a name the component did
    not write itself is read from a record: the rotation effect reads the
    names of the rotation map from the record of panels, see
    [Model.member].  No name that discovery reports is the name of such a
    member, see [ModelFacts.discovered_name_not_inherited]. *)

(** The property names of [Object.prototype]. *)
Definition objectPrototypeMembers : list string :=
  ["constructor"; "__defineGetter__"; "__defineSetter__"; "hasOwnProperty";
   "__lookupGetter__"; "__lookupSetter__"; "isPrototypeOf";
   "propertyIsEnumerable"; "toString"; "valueOf"; "__proto__";
   "toLocaleString"].

Section Records.
Context {V : Type}.

Definition record := list (string * V).

Fixpoint rec_get (k : string) (r : record) : option V :=
  match r with
  | [] => None
  | (k', v) :: r' => if decide (k' = k) then Some v else rec_get k r'
  end.

(** [r[k] = v] *)
Fixpoint rec_set (k : string) (v : V) (r : record) : record :=
  match r with
  | [] => [(k, v)]
  | (k', v') :: r' =>
      if decide (k' = k) then (k', v) :: r' else (k', v') :: rec_set k v r'
  end.

Definition rec_keys (r : record) : list string := r.*1.
Definition rec_entries (r : record) : list (string * V) := r.

Definition rec_values (r : record) : list V := r.*2.
End Records.
Global Arguments record : clear implicits.
Global Arguments rec_keys {V} r : simpl never.
Global Arguments rec_values {V} r : simpl never.

(** ** Exceptions *)

Inductive Error := SyntaxError | TypeError.

Inductive outcome (A : Type) :=
| Ok (a : A)
| Throw (e : Error).
Global Arguments Ok {A} a.
Global Arguments Throw {A} e.

Global Instance outcome_ret : MRet outcome := λ A a, Ok a.
Global Instance outcome_bind : MBind outcome := λ A B f m,
  match m with
  | Ok a => f a
  | Throw e => Throw e
  end.

(** [try { body } catch (e) { handler }] *)
Definition try_catch {A} (body : outcome A) (handler : Error → outcome A)
  : outcome A :=
  match body with
  | Ok a => Ok a
  | Throw e => handler e
  end.

(** ** Values

    What a variable of the controller can hold at run time: the values
    [JSON.parse] produces, and [undefined]. *)
Inductive JSValue (num : Type) :=
| JUndefined
| JNull
| JBool (b : bool)
| JNum (n : num)
| JStr (s : string)
| JArr (elements : list (JSValue num))
| JObj (properties : list (string * JSValue num)).
Global Arguments JUndefined {num}.
Global Arguments JNull {num}.
Global Arguments JBool {num} b.
Global Arguments JNum {num} n.
Global Arguments JStr {num} s.
Global Arguments JArr {num} elements.
Global Arguments JObj {num} properties.

Section Values.
Context {num : Type}.
(** The numbers that [ToBoolean] sends to [false]: [0], [-0] and [NaN]. *)
Variable falsy : num → bool.

Definition truthy (v : JSValue num) : bool :=
  match v with
  | JUndefined | JNull => false
  | JBool b => b
  | JNum n => negb (falsy n)
  | JStr s => negb (String.eqb s "")
  | JArr _ | JObj _ => true
  end.

(** The own property [k] of an object. *)
Definition own_prop (v : JSValue num) (k : string) : option (JSValue num) :=
  match v with
  | JObj properties => rec_get k properties
  | _ => None
  end.

(** [v[k]] for a property name [k] that is neither an index nor a member
    of a prototype (the controller reads [custom1] and [custom2]):
    reading a property of [null] or [undefined] is a [TypeError], an
    object yields its own property, anything else [undefined]. *)
Definition get_prop (v : JSValue num) (k : string) : outcome (JSValue num) :=
  match v with
  | JUndefined | JNull => Throw TypeError
  | _ => Ok (default JUndefined (own_prop v k))
  end.

Definition chars (s : string) : list (JSValue num) :=
  (λ c, JStr (String c "")) <$> list_ascii_of_string s.

(** [[...v]]: the elements of an array, the characters of a string (of an
    ASCII string, one per byte); nothing else the controller holds is
    iterable. *)
Definition spread_elements (v : JSValue num) : outcome (list (JSValue num)) :=
  match v with
  | JArr elements => Ok elements
  | JStr s => Ok (chars s)
  | _ => Throw TypeError
  end.

Definition indexed (l : list (JSValue num)) : record (JSValue num) :=
  imap (λ i v, (pretty i, v)) l.

(** [{...v}]: the own enumerable properties of [v]. *)
Definition spread_properties (v : JSValue num) : record (JSValue num) :=
  match v with
  | JObj properties => properties
  | JArr elements => indexed elements
  | JStr s => indexed (chars s)
  | _ => []
  end.
End Values.

End JS.


(** * The model adapter ([components/Model.tsx]) *)

Module Model.
Import JS.

(** ** The loaded asset

    [scene.traverse(callback)] calls [callback] on the object and then, in
    order, on everything below each of its children.  The two effects of
    the component read and write single objects only, so the state of the
    asset is the sequence of its objects in visiting order, and a reference
    to an object is its position in that sequence. *)
Abbreviation ref := nat.

Section Adapter.
Context {num : Type}.
(** Addition of numbers and [MathUtils.degToRad], both supplied by the
    runtime and the rendering library. *)
Variable add : num → num → num.
Variable degToRad : num → num.

Record Euler := mkEuler { x : num; y : num; z : num }.

Definition RotationArray : Type := num * num * num.

Record Object3D := mkObject3D {
  name : string;
  type : string;
  rotation : Euler;
  (** [userData.originalRotation], absent until first captured *)
  originalRotation : option Euler;
}.

Inductive SceneGraph :=
| Node (object : Object3D) (children : list SceneGraph).

Fixpoint traverse (scene : SceneGraph) : list Object3D :=
  match scene with
  | Node object children => object :: flat_map traverse children
  end.

(** ** Discovery (the first effect) *)

(** The test of the first traversal:
    [object.name && (lower.includes('panel') || ... )]. *)
Definition isPanelName (n : string) : bool :=
  negb (String.eqb n "") &&
  (includes (toLowerCase n) "panel" ||
   includes (toLowerCase n) "solar" ||
   includes (toLowerCase n) "array" ||
   includes (toLowerCase n) "wing").

(** First traversal: [panels[object.name] = object] for matching names.
    [i] is the reference of the head of [objects]. *)
Fixpoint findByName (i : ref) (objects : list Object3D) (panels : record ref)
  : record ref :=
  match objects with
  | [] => panels
  | object :: rest =>
      findByName (S i) rest
        (if isPanelName (name object) then rec_set (name object) i panels
         else panels)
  end.

Definition syntheticName (panelCount : nat) : string :=
  "Panel_" +:+ pretty panelCount.

Definition rename (n : string) (object : Object3D) : Object3D :=
  {| name := n; type := type object; rotation := rotation object;
     originalRotation := originalRotation object |}.

(** Second traversal, taken when the first found nothing: every object of
    type ['Mesh'] is renamed [Panel_<panelCount++>] and registered. *)
Fixpoint nameMeshes (i : ref) (objects : list Object3D) (panelCount : nat)
    (panels : record ref) : list Object3D * record ref :=
  match objects with
  | [] => ([], panels)
  | object :: rest =>
      if String.eqb (type object) "Mesh" then
        let object' := rename (syntheticName panelCount) object in
        let '(rest', panels') :=
          nameMeshes (S i) rest (S panelCount)
            (rec_set (name object') i panels) in
        (object' :: rest', panels')
      else
        let '(rest', panels') := nameMeshes (S i) rest panelCount panels in
        (object :: rest', panels')
  end.

(** The discovery effect on the objects of the asset.  It yields the
    objects after the effect and the record [panels]; the component keeps
    that very record as [panelObjects] (it is handed to [setPanelObjects]
    before the second traversal fills it, and it is the same object). *)
Definition discoverObjects (objects : list Object3D)
  : list Object3D * record ref :=
  let panels := findByName 0 objects [] in
  if (length (rec_keys panels) =? 0)%nat
  then nameMeshes 0 objects 0 panels
  else (objects, panels).

Definition discover (scene : SceneGraph) : list Object3D * record ref :=
  discoverObjects (traverse scene).

(** What [onPanelsFound] receives: [Object.keys(panels)]. *)
Definition panelsFound (scene : SceneGraph) : list string :=
  rec_keys (discover scene).2.

(** The notions the properties of discovery are stated with. *)

Definition panelWords : list string := ["panel"; "solar"; "array"; "wing"].

(** The name contains one of the four words, case ignored. *)
Definition qualifies (n : string) : Prop :=
  ∃ word, word ∈ panelWords ∧ contains_ignoring_case n word.

(** The names of a sequence of objects, in order. *)
Definition namesOf (objects : list Object3D) : list string :=
  name <$> objects.

Definition isMesh (object : Object3D) : bool :=
  String.eqb (type object) "Mesh".

Definition meshCount (objects : list Object3D) : nat :=
  length (filter (λ object, isMesh object = true) objects).

(** The references of the meshes among [objects], whose head has
    reference [i], in visiting order. *)
Fixpoint meshRefs (i : ref) (objects : list Object3D) : list ref :=
  match objects with
  | [] => []
  | object :: rest =>
      if isMesh object then i :: meshRefs (S i) rest
      else meshRefs (S i) rest
  end.

(** Keys that [Object.keys] would move to the front are made of digits
    only. *)
Definition isDigit (c : ascii) : bool :=
  let n := nat_of_ascii c in (48 <=? n)%nat && (n <=? 57)%nat.

Fixpoint digitsOnly (s : string) : bool :=
  match s with
  | EmptyString => true
  | String c s' => isDigit c && digitsOnly s'
  end.

(** ** Panel rotation (the third effect) *)

(** The body of the [if (panel)] branch: capture the original rotation
    when there is none yet, then [panel.rotation.set(...)]. *)
Definition rotateFromOriginal (r : RotationArray) (panel : Object3D)
  : Object3D :=
  let original :=
    match originalRotation panel with
    | Some e => e
    | None => rotation panel
    end in
  {| name := name panel; type := type panel;
     rotation := {| x := add (x original) (degToRad r.1.1);
                    y := add (y original) (degToRad r.1.2);
                    z := add (z original) (degToRad r.2) |};
     originalRotation := Some original |}.

(** [panelObjects[panelName]].  The record is a plain object, so the
    read follows the prototype chain: an own property yields the object
    discovery bound to the name; a name that is no own property but a
    member of [Object.prototype] yields that member (a function, or for
    [__proto__] the prototype itself); any other name yields
    [undefined]. *)
Inductive Member :=
| Own (i : ref)
| Inherited
| Missing.

Definition member (panelObjects : record ref) (panelName : string)
  : Member :=
  match rec_get panelName panelObjects with
  | Some i => Own i
  | None =>
      if bool_decide (panelName ∈ objectPrototypeMembers) then Inherited
      else Missing
  end.

(** One round of the [forEach] over [Object.entries(panelRotations)].
    An inherited member is truthy, so it passes [if (panel)]; it has no
    [userData], and reading [panel.userData.originalRotation] throws a
    [TypeError]. *)
Definition rotatePanel (panelObjects : record ref)
    (objects : list Object3D) (entry : string * RotationArray)
  : outcome (list Object3D) :=
  match member panelObjects entry.1 with
  | Own i => Ok (alter (rotateFromOriginal entry.2) i objects)
  | Inherited => Throw TypeError
  | Missing => Ok objects
  end.

(** The [forEach]: the rounds in the order of the entries.  The objects
    are written in place, so when a round throws, what the rounds before
    it wrote stays written and the rounds after it do not run: the result
    is the objects as the effect leaves them and the exception, if any. *)
Fixpoint rotatePanels (panelObjects : record ref)
    (objects : list Object3D) (entries : list (string * RotationArray))
  : list Object3D * option Error :=
  match entries with
  | [] => (objects, None)
  | entry :: rest =>
      match rotatePanel panelObjects objects entry with
      | Ok objects' => rotatePanels panelObjects objects' rest
      | Throw e => (objects, Some e)
      end
  end.

Definition applyPanelRotations (panelObjects : record ref)
    (panelRotations : record RotationArray) (objects : list Object3D)
  : list Object3D * option Error :=
  if (0 <? length (rec_keys panelObjects))%nat
  then rotatePanels panelObjects objects (rec_entries panelRotations)
  else (objects, None).

(** The notions the properties of the effect are stated with. *)

(** A name that the record finds on the prototype only. *)
Definition inheritedOnly (panelObjects : record ref) (panelName : string)
  : bool :=
  match member panelObjects panelName with
  | Inherited => true
  | _ => false
  end.

(** The entries before the first whose name is inherited only. *)
Fixpoint reached (panelObjects : record ref)
    (entries : list (string * RotationArray))
  : list (string * RotationArray) :=
  match entries with
  | [] => []
  | entry :: rest =>
      if inheritedOnly panelObjects entry.1 then []
      else entry :: reached panelObjects rest
  end.

(** Whether the effect throws: panels have been found and some name of
    the map is inherited only. *)
Definition throws (panelObjects : record ref)
    (panelRotations : record RotationArray) : bool :=
  (0 <? length (rec_keys panelObjects))%nat &&
  existsb (λ entry, inheritedOnly panelObjects entry.1)
    (rec_entries panelRotations).

(** The request the third effect applies last to the object [i]: that of
    the last entry whose name [panelObjects] binds to [i], if there is
    one. *)
Fixpoint lastRequest (panelObjects : record ref)
    (entries : list (string * RotationArray)) (i : ref)
  : option RotationArray :=
  match entries with
  | [] => None
  | entry :: rest =>
      match lastRequest panelObjects rest i with
      | Some r => Some r
      | None =>
          if decide (rec_get entry.1 panelObjects = Some i)
          then Some entry.2 else None
      end
  end.

(** What discovery never writes: the type, the rotation and the captured
    rotation of an object. *)
Definition pose (object : Object3D) : string * Euler * option Euler :=
  (type object, rotation object, originalRotation object).

(** ** Model rotation (the second effect) *)

(** The literals [0] and [1]. *)
Variable zero : num.
Variable one : num.

Record Vector3 := mkVector3 { vx : num; vy : num; vz : num }.

(** The asset as the second effect meets it: the scale and the position
    of the scene root, and the objects in visiting order, the root first
    (its rotation is [scene.rotation]). *)
Record Asset := mkAsset {
  scale : Vector3;
  position : Vector3;
  nodes : list Object3D;
}.

(** [object.rotation.set(x, y, z)] *)
Definition setRotation (e : Euler) (object : Object3D) : Object3D :=
  {| name := name object; type := type object; rotation := e;
     originalRotation := originalRotation object |}.

(** Apply rotation to the entire model when it changes: the scale and
    the position are set anew each time, the rotation is set from the
    three degrees. *)
Definition applyModelRotation (initialRotation : RotationArray)
    (asset : Asset) : Asset :=
  {| scale := mkVector3 one one one;
     position := mkVector3 zero zero zero;
     nodes :=
       alter
         (setRotation {| x := degToRad initialRotation.1.1;
                         y := degToRad initialRotation.1.2;
                         z := degToRad initialRotation.2 |})
         0 (nodes asset) |}.

End Adapter.
End Model.


(** * The scene controller ([components/Scene.tsx]) *)

Module Scene.
Import JS.

Inductive CustomName := custom1 | custom2.
Inductive FixedName := front | top | side | panels.
(** [Exclude<PresetName, 'none'>] *)
Inductive ViewName :=
| fixed (f : FixedName)
| custom (c : CustomName).
Inductive PresetName :=
| view (v : ViewName)
| none.

Definition key (c : CustomName) : string :=
  match c with
  | custom1 => "custom1"
  | custom2 => "custom2"
  end.

(** [localStorage]: [getItem] is the lookup, [null] when the key is absent. *)
Abbreviation Storage := (gmap string string).

Section Controller.
Context {num : Type}.
(** Number literals, [ToBoolean] on numbers and [JSON.parse] come from the
    runtime.  [JSON_parse] throws on text that is not JSON, and the objects
    it yields have no two properties of the same name. *)
Variable lit : Z → num.
Variable falsy : num → bool.
Variable JSON_parse : string → outcome (JSValue num).

Abbreviation Value := (JSValue num).

Definition rotationArray (a b c : Z) : Value :=
  JArr [JNum (lit a); JNum (lit b); JNum (lit c)].

(** Predefined view presets *)
Definition viewPresets (v : ViewName) : Value :=
  match v with
  | fixed front => rotationArray 0 0 0
  | fixed top => rotationArray 90 0 0
  | fixed side => rotationArray 0 90 0
  | fixed panels => rotationArray 30 45 15
  | custom custom1 => rotationArray 0 0 0
  | custom custom2 => rotationArray 0 0 0
  end.

(** The state hooks of [Scene], and the ref [panelInfoRef].  The three
    hooks that [JSON.parse] or a custom preset can feed hold any value.

    Every handler below is run by one event (a click, the discovery
    callback, the mount of the component) on the state of the latest
    render, and the state it leaves is the state of the next render: a
    handler is a function from state to state, or to an exception.  The
    arrays and objects in the state are never written in place (the
    handlers copy before they change), so they are modelled as values. *)
Record State := mkState {
  modelRotation : Value;
  activePreset : PresetName;
  customPresets : Value;
  panelList : list string;
  selectedPanel : string;
  panelRotations : Value;
  showPanelControls : bool;
  panelInfoRef : list string;
}.

Definition initialState : State :=
  {| modelRotation := rotationArray 0 0 0;
     activePreset := view (fixed front);
     customPresets :=
       JObj [("custom1", rotationArray 0 0 0);
             ("custom2", rotationArray 0 0 0)];
     panelList := [];
     selectedPanel := "";
     panelRotations := JObj [];
     showPanelControls := false;
     panelInfoRef := [] |}.

Definition setModelRotation (v : Value) (s : State) : State :=
  mkState v (activePreset s) (customPresets s) (panelList s)
    (selectedPanel s) (panelRotations s) (showPanelControls s)
    (panelInfoRef s).
Definition setActivePreset (p : PresetName) (s : State) : State :=
  mkState (modelRotation s) p (customPresets s) (panelList s)
    (selectedPanel s) (panelRotations s) (showPanelControls s)
    (panelInfoRef s).
Definition setCustomPresets (v : Value) (s : State) : State :=
  mkState (modelRotation s) (activePreset s) v (panelList s)
    (selectedPanel s) (panelRotations s) (showPanelControls s)
    (panelInfoRef s).
Definition setPanelList (l : list string) (s : State) : State :=
  mkState (modelRotation s) (activePreset s) (customPresets s) l
    (selectedPanel s) (panelRotations s) (showPanelControls s)
    (panelInfoRef s).
Definition setPanelRotations (v : Value) (s : State) : State :=
  mkState (modelRotation s) (activePreset s) (customPresets s) (panelList s)
    (selectedPanel s) v (showPanelControls s) (panelInfoRef s).
Definition setShowPanelControls (b : bool) (s : State) : State :=
  mkState (modelRotation s) (activePreset s) (customPresets s) (panelList s)
    (selectedPanel s) (panelRotations s) b (panelInfoRef s).
Definition setPanelInfoRef (l : list string) (s : State) : State :=
  mkState (modelRotation s) (activePreset s) (customPresets s) (panelList s)
    (selectedPanel s) (panelRotations s) (showPanelControls s) l.

(** The record both [handlePanelsFound] and [resetAllPanelRotations]
    build: [rotations[panel] = [0, 0, 0]] for each [panel] in turn. *)
Definition zeroRotations (panels : list string) : record Value :=
  foldl (λ rotations panel, rec_set panel (rotationArray 0 0 0) rotations)
    [] panels.

(** Function to receive panel information from the Model component *)
Definition handlePanelsFound (panels : list string) (s : State) : State :=
  let s := setPanelList panels s in
  let s := setPanelInfoRef panels s in
  let initialRotations := zeroRotations panels in
  setPanelRotations (JObj initialRotations) s.

(** Function to apply a preset *)
Definition applyPreset (presetName : ViewName) (s : State) : outcome State :=
  s' ← match presetName with
       | custom c =>
           rotation ← get_prop (customPresets s) (key c);
           Ok (setModelRotation rotation s)
       | fixed _ => Ok (setModelRotation (viewPresets presetName) s)
       end;
  Ok (setActivePreset (view presetName) s').

(** Function to save current angle as a custom preset *)
Definition saveAsCustom (presetName : CustomName) (s : State) : outcome State :=
  copy ← spread_elements (modelRotation s);
  let prev := customPresets s in
  let s := setCustomPresets
             (JObj (rec_set (key presetName) (JArr copy)
                      (spread_properties prev))) s in
  Ok (setActivePreset (view (custom presetName)) s).

(** Function to toggle panel controls visibility *)
Definition togglePanelControls (s : State) : State :=
  setShowPanelControls (negb (showPanelControls s)) s.

(** Function to reset all panel rotations *)
Definition resetAllPanelRotations (s : State) : State :=
  let resetRotations := zeroRotations (panelList s) in
  setPanelRotations (JObj resetRotations) s.

(** Load saved presets from localStorage on component mount.  Each
    handler of the two [try] blocks only logs. *)
Definition loadCustomPresets (localStorage : Storage) (s : State)
  : outcome State :=
  match localStorage !! "issCustomViewPresets" with
  | Some savedCustomPresets =>
      if truthy falsy (JStr savedCustomPresets) then
        try_catch
          (parsed ← JSON_parse savedCustomPresets;
           c1 ← get_prop parsed "custom1";
           if truthy falsy c1 then
             c2 ← get_prop parsed "custom2";
             if truthy falsy c2 then Ok (setCustomPresets parsed s)
             else Ok s
           else Ok s)
          (λ e, Ok s)
      else Ok s
  | None => Ok s
  end.

Definition loadPanelRotations (localStorage : Storage) (s : State)
  : outcome State :=
  match localStorage !! "issPanelRotations" with
  | Some savedPanelRotations =>
      if truthy falsy (JStr savedPanelRotations) then
        try_catch
          (parsed ← JSON_parse savedPanelRotations;
           Ok (setPanelRotations parsed s))
          (λ e, Ok s)
      else Ok s
  | None => Ok s
  end.

Definition load (localStorage : Storage) (s : State) : outcome State :=
  s ← loadCustomPresets localStorage s;
  loadPanelRotations localStorage s.

(** Both the [custom1] and the [custom2] field of a parsed value are
    present and truthy. *)
Definition hasBothCustomPresets (parsed : Value) : bool :=
  truthy falsy (default JUndefined (own_prop parsed "custom1")) &&
  truthy falsy (default JUndefined (own_prop parsed "custom2")).

(** The rotation the map holds for a panel. *)
Definition rotationOf (panel : string) (s : State) : option Value :=
  own_prop (panelRotations s) panel.

(** The reading of the discovery callback under which a panel that is
    already in the rotation map keeps its rotation. *)
Definition keepsExistingRotations : Prop :=
  ∀ panels s panel rotation,
    panel ∈ panels →
    rotationOf panel s = Some rotation →
    rotationOf panel (handlePanelsFound panels s) = Some rotation.

(** ** The sliders

    The two handlers hand an updater to the state setter.  The updater is
    run on the state the handler finds, and an exception of the updater
    is the exception of the update. *)

(** ['x' | 'y' | 'z'] *)
Inductive Axis := axisX | axisY | axisZ.

Definition index (axis : Axis) : nat :=
  match axis with
  | axisX => 0
  | axisY => 1
  | axisZ => 2
  end.

(** [a[i] = v] on an array: within the array the element is replaced; past
    its end the array grows, and the slots in between are holes, which every
    reader in this component (an index, a spread, [JSON.stringify]) meets
    as [undefined]. *)
Definition set_index (i : nat) (v : Value) (a : list Value) : list Value :=
  if decide (i < length a) then <[i := v]> a
  else a ++ replicate (i - length a) JUndefined ++ [v].

(** Function to handle rotation change for the main model *)
Definition handleRotationChange (axis : Axis) (value : num) (s : State)
  : outcome State :=
  let prev := modelRotation s in
  newRotation ← spread_elements prev;
  let newRotation := set_index (index axis) (JNum value) newRotation in
  let s := setModelRotation (JArr newRotation) s in
  Ok (setActivePreset none s).

(** Function to handle rotation change for a specific panel *)
Definition handlePanelRotationChange (panel : string) (axis : Axis)
    (value : num) (s : State) : outcome State :=
  let prev := panelRotations s in
  let newRotations := spread_properties prev in
  let newRotations :=
    if truthy falsy (default JUndefined (rec_get panel newRotations))
    then newRotations
    else rec_set panel (rotationArray 0 0 0) newRotations in
  rotation ←
    spread_elements (default JUndefined (rec_get panel newRotations));
  let rotation := set_index (index axis) (JNum value) rotation in
  let newRotations := rec_set panel (JArr rotation) newRotations in
  Ok (setPanelRotations (JObj newRotations) s).

Definition setSelectedPanel (panel : string) (s : State) : State :=
  mkState (modelRotation s) (activePreset s) (customPresets s) (panelList s)
    panel (panelRotations s) (showPanelControls s) (panelInfoRef s).

(** ** Saving to local storage *)

(** The text [localStorage.setItem] stores for [JSON.stringify(v)]. *)
Variable JSON_stringify : Value → string.

(** Function to save panel rotations to localStorage *)
Definition savePanelRotations (s : State) (localStorage : Storage)
  : Storage :=
  <["issPanelRotations" := JSON_stringify (panelRotations s)]> localStorage.

(** Save custom presets to localStorage when they change (the body of the
    last effect). *)
Definition saveCustomPresets (s : State) (localStorage : Storage)
  : Storage :=
  <["issCustomViewPresets" := JSON_stringify (customPresets s)]>
    localStorage.

(** ** The component at work

    The state of the component and the storage it writes. *)
Definition World : Type := State * Storage.

(** The mount of the component.  The two effects run in the order in which
    the component declares them, both on the values of the first render:
    [load] reads the storage, then the saving effect stores the custom
    presets of the initial state.  The render that [load] asked for by
    setting state follows, and the saving effect runs once more if the
    custom presets were replaced; it stores what is in memory then.  (When
    they were not replaced, storing them again would store the text that
    is there already, so the second run is written unconditionally.) *)
Definition mount (localStorage : Storage) : outcome World :=
  s ← load localStorage initialState;
  let localStorage := saveCustomPresets initialState localStorage in
  let localStorage := saveCustomPresets s localStorage in
  Ok (s, localStorage).

(** What can happen to a mounted component: the callback of the model
    adapter, and the controls of the two tabs. *)
Inductive Event :=
| PanelsFound (panels : list string)
| ShowPanelControls (visible : bool)
| PresetButton (presetName : ViewName)
| SaveAsCustomButton (presetName : CustomName)
| RotationSlider (axis : Axis) (value : num)
| ResetAllPanelsButton
| SavePanelPositionsButton
| SelectPanel (panel : string)
| PanelRotationSlider (axis : Axis) (value : num).

(** The handler each control is wired to, followed, where the handler
    replaces the custom presets, by the effect that saves them. *)
Definition handle (event : Event) (w : World) : outcome World :=
  let '(s, localStorage) := w in
  match event with
  | PanelsFound names => Ok (handlePanelsFound names s, localStorage)
  | ShowPanelControls visible =>
      Ok (setShowPanelControls visible s, localStorage)
  | PresetButton presetName =>
      s ← applyPreset presetName s; Ok (s, localStorage)
  | SaveAsCustomButton presetName =>
      s ← saveAsCustom presetName s;
      Ok (s, saveCustomPresets s localStorage)
  | RotationSlider axis value =>
      s ← handleRotationChange axis value s; Ok (s, localStorage)
  | ResetAllPanelsButton => Ok (resetAllPanelRotations s, localStorage)
  | SavePanelPositionsButton => Ok (s, savePanelRotations s localStorage)
  | SelectPanel panel => Ok (setSelectedPanel panel s, localStorage)
  | PanelRotationSlider axis value =>
      s ← handlePanelRotationChange (selectedPanel s) axis value s;
      Ok (s, localStorage)
  end.

(** A run of events, from the first to the last. *)
Fixpoint run (events : list Event) (w : World) : outcome World :=
  match events with
  | [] => Ok w
  | event :: rest => w ← handle event w; run rest w
  end.

(** ** The declared types

    What the type annotations of the state hooks say: a rotation is an
    array of three numbers, the custom presets are an object with a
    rotation in [custom1] and in [custom2], the panel rotations are an
    object of rotations. *)
Definition isRotation (v : Value) : Prop :=
  ∃ a b c, v = JArr [JNum a; JNum b; JNum c].

Definition wellTyped (s : State) : Prop :=
  isRotation (modelRotation s) ∧
  (∃ properties,
     customPresets s = JObj properties ∧
     (∃ r, rec_get "custom1" properties = Some r ∧ isRotation r) ∧
     (∃ r, rec_get "custom2" properties = Some r ∧ isRotation r)) ∧
  (∃ rotations,
     panelRotations s = JObj rotations ∧
     ∀ panel r, rec_get panel rotations = Some r → isRotation r).

End Controller.
End Scene.

(** * The two components together

    [Scene] renders [<Model panelRotations={panelRotations} ... />]: the
    rotation map of the controller is the map the third effect of the
    adapter runs over. *)

Module App.
Import JS Model Scene.

Section Props.
Context {num : Type}.
Variable add : num → num → num.
Variable degToRad : num → num.

(** The adapter reads [rotation[0]], [rotation[1]] and [rotation[2]] of
    each entry; of an array of three numbers these are the numbers.  Other
    entries are outside the declared type of the prop, and what the effect
    makes of them is not modelled. *)
Definition asRotation (v : JSValue num) : option (RotationArray (num:=num)) :=
  match v with
  | JArr [JNum a; JNum b; JNum c] => Some (a, b, c)
  | _ => None
  end.

Definition asRotations (v : JSValue num)
  : option (record (RotationArray (num:=num))) :=
  match v with
  | JObj properties =>
      mapM (λ entry, r ← asRotation entry.2; Some (entry.1, r)) properties
  | _ => None
  end.

(** The third effect of the adapter, run on the rotation map the
    controller holds. *)
Definition renderPanelRotations (panelObjects : record ref)
    (s : State (num:=num)) (objects : list (Object3D (num:=num)))
  : option (list (Object3D (num:=num)) * option Error) :=
  panelRotations ← asRotations (Scene.panelRotations s);
  Some (applyPanelRotations add degToRad panelObjects panelRotations objects).

End Props.
End App.

(** * Sample assets, stored texts and runtimes *)

Module Samples.
Import JS Model Scene.

(** ** For the adapter *)

Definition object {num} (n t : string) (pose : Euler (num:=num))
  : Object3D :=
  {| name := n; type := t; rotation := pose; originalRotation := None |}.

(** The asset of the concrete scenario, with every object but the left wing
    at the pose [rest]. *)
Definition station {num} (rest leftWing : Euler (num:=num)) : SceneGraph :=
  Node (object "Body" "Group" rest)
    [Node (object "SolarWingLeft" "Mesh" leftWing) [];
     Node (object "SolarWingRight" "Mesh" rest) [];
     Node (object "Camera" "PerspectiveCamera" rest) []].

(** An asset without a telling name: three meshes, one of them below
    another, and two groups. *)
Definition hull {num} (rest : Euler (num:=num)) : SceneGraph :=
  Node (object "Scene" "Group" rest)
    [Node (object "Body" "Mesh" rest)
       [Node (object "Hatch" "Mesh" rest) []];
     Node (object "Rig" "Group" rest)
       [Node (object "" "Mesh" rest) []];
     Node (object "Camera" "PerspectiveCamera" rest) []].

(** Discovery does not look at numbers: integers will do. *)
Definition origin : Euler (num:=Z) := mkEuler 0%Z 0%Z 0%Z.

(** For the rotation effect, numbers as reals and [degToRad] as the
    rendering library has it, [degrees * (π / 180)]. *)
Definition degToRad (degrees : R) : R := (degrees * (PI / 180))%R.

Definition stationAtRest : SceneGraph :=
  station (mkEuler 0%R 0%R 0%R) (mkEuler 1%R 2%R 3%R).

Definition stationPanels : record ref := (discover stationAtRest).2.

Definition allZero : record (RotationArray (num:=R)) :=
  [("SolarWingLeft", (0, 0, 0)%R); ("SolarWingRight", (0, 0, 0)%R)].

(** The objects of the station once the rotation effect has run with the
    all-zero map, which captures the original poses. *)
Definition stationCaptured : list Object3D :=
  (applyPanelRotations Rplus degToRad stationPanels allZero
     (discover stationAtRest).1).1.

(** The X slider of SolarWingLeft set to 45. *)
Definition leftAt45 : record (RotationArray (num:=R)) :=
  [("SolarWingLeft", (45, 0, 0)%R); ("SolarWingRight", (0, 0, 0)%R)].


(** ** For the controller: numbers as integers, as the sliders and the
    presets deliver them, and a reader for the stored texts below. *)

Definition literal (n : Z) : Z := n.
Definition isZero (n : Z) : bool := (n =? 0)%Z.

Definition quoted (s : string) : string :=
  String "034" (s +:+ String "034" "").

(** An object with both fields, [custom1] being [[10,20,30]] and [custom2]
    being [[0,90,0]]. *)
Definition bothPresetsText : string :=
  "{" +:+ quoted "custom1" +:+ ":[10,20,30]," +:+
  quoted "custom2" +:+ ":[0,90,0]}".

(** An object with the field [custom1] only. *)
Definition onePresetText : string :=
  "{" +:+ quoted "custom1" +:+ ":[10,20,30]}".

Definition malformedText : string := "{oops".

Definition parse (text : string) : outcome (JSValue Z) :=
  if decide (text = "null") then Ok JNull
  else if decide (text = "[10,20,30]") then
    Ok (JArr [JNum 10%Z; JNum 20%Z; JNum 30%Z])
  else if decide (text = bothPresetsText) then
    Ok (JObj [("custom1", JArr [JNum 10%Z; JNum 20%Z; JNum 30%Z]);
              ("custom2", JArr [JNum 0%Z; JNum 90%Z; JNum 0%Z])])
  else if decide (text = onePresetText) then
    Ok (JObj [("custom1", JArr [JNum 10%Z; JNum 20%Z; JNum 30%Z])])
  else Throw SyntaxError.

(** Both keys hold text that is not JSON. *)
Definition corruptStorage : Storage :=
  {[ "issCustomViewPresets" := malformedText;
     "issPanelRotations" := malformedText ]}.

(** Both keys hold JSON; the panel rotations are an array, not a map. *)
Definition savedStorage : Storage :=
  {[ "issCustomViewPresets" := bothPresetsText;
     "issPanelRotations" := "[10,20,30]" ]}.

(** A state in which SolarWingLeft has been turned by 45 on X. *)
Definition turned : State (num:=Z) :=
  setPanelRotations
    (JObj [("SolarWingLeft", rotationArray literal 45 0 0)])
    (setPanelList ["SolarWingLeft"] (initialState literal)).

(** The state after the preset [panels] has been applied. *)
Definition viewingPanels : State (num:=Z) :=
  setActivePreset (view (fixed panels))
    (setModelRotation (rotationArray literal 30 45 15) (initialState literal)).

(** An asset whose root is itself named as a panel, scaled and moved. *)
Definition arrayRoot : Asset (num:=R) :=
  {| scale := mkVector3 2%R 2%R 2%R;
     position := mkVector3 5%R 0%R 0%R;
     nodes := [object "SolarArray" "Group" (mkEuler 0%R 0%R 0%R)] |}.

(** [ToBoolean] on the reals, which have no [NaN]. *)
Definition isZeroR (r : R) : bool := if Req_dec_T r 0 then true else false.

(** A writer of texts for the values the scenarios store: integers, and
    arrays and objects of them. *)
Fixpoint commas (texts : list string) : string :=
  match texts with
  | [] => ""
  | [text] => text
  | text :: rest => text +:+ "," +:+ commas rest
  end.

Fixpoint stringify (v : JSValue Z) : string :=
  match v with
  | JUndefined | JNull => "null"
  | JBool b => if b then "true" else "false"
  | JNum n => pretty n
  | JStr t => quoted t
  | JArr elements => "[" +:+ commas (stringify <$> elements) +:+ "]"
  | JObj properties =>
      "{" +:+
      commas ((λ property, quoted property.1 +:+ ":" +:+
                           stringify property.2) <$> properties) +:+
      "}"
  end.

(** The rotation map of [turned], and custom presets that are numbers. *)
Definition turnedText : string :=
  "{" +:+ quoted "SolarWingLeft" +:+ ":[45,0,0]}".

Definition numbersText : string :=
  "{" +:+ quoted "custom1" +:+ ":1," +:+ quoted "custom2" +:+ ":2}".

(** [parse], and the two texts above. *)
Definition reader (text : string) : outcome (JSValue Z) :=
  if decide (text = turnedText) then
    Ok (JObj [("SolarWingLeft", JArr [JNum 45%Z; JNum 0%Z; JNum 0%Z])])
  else if decide (text = numbersText) then
    Ok (JObj [("custom1", JNum 1%Z); ("custom2", JNum 2%Z)])
  else parse text.

(** A state whose custom views are those of [bothPresetsText]. *)
Definition keptViews : State (num:=Z) :=
  setCustomPresets
    (JObj [("custom1", rotationArray literal 10 20 30);
           ("custom2", rotationArray literal 0 90 0)])
    (initialState literal).

(** A state whose rotation map holds a number for SolarWingLeft and
    [null] for SolarWingRight. *)
Definition foreign : State (num:=Z) :=
  setPanelRotations
    (JObj [("SolarWingLeft", JNum 5%Z); ("SolarWingRight", JNull)])
    (initialState literal).

(** A session: discovery, a view saved, a panel turned and the panel
    positions saved. *)
Definition session : list (Event (num:=Z)) :=
  [PanelsFound ["SolarWingLeft"; "SolarWingRight"];
   PresetButton (fixed panels);
   RotationSlider axisY 60%Z;
   SaveAsCustomButton custom2;
   PresetButton (fixed top);
   SelectPanel "SolarWingLeft";
   PanelRotationSlider axisX 45%Z;
   SavePanelPositionsButton].

(** The same without the last button. *)
Definition unsavedSession : list (Event (num:=Z)) :=
  [PanelsFound ["SolarWingLeft"; "SolarWingRight"];
   PresetButton (fixed panels);
   RotationSlider axisY 60%Z;
   SaveAsCustomButton custom2;
   PresetButton (fixed top);
   SelectPanel "SolarWingLeft";
   PanelRotationSlider axisX 45%Z].

(** A storage that holds the text of the default presets. *)
Definition freshStorage : Storage :=
  {[ "issCustomViewPresets" :=
       stringify (customPresets (initialState literal)) ]}.

(** Where a run ends. *)
Definition ended (o : outcome (World (num:=Z))) : World :=
  match o with
  | Ok w => w
  | Throw _ => (initialState literal, ∅)
  end.

Definition sessionEnd : World :=
  Eval vm_compute in
    ended (run literal isZero stringify session
             (initialState literal, freshStorage)).

Definition unsavedSessionEnd : World :=
  Eval vm_compute in
    ended (run literal isZero stringify unsavedSession
             (initialState literal, freshStorage)).

Definition keptViewsSessionEnd : World :=
  Eval vm_compute in
    ended (run literal isZero stringify session (keptViews, ∅)).

End Samples.

(** * Facts about the runtime fragments *)

Module JSFacts.
Import JS.

Lemma append_nil_l s : "" +:+ s = s.
Proof. reflexivity. Qed.

Lemma append_cons c s t : String c s +:+ t = String c (s +:+ t).
Proof. reflexivity. Qed.

Create Rewrite HintDb strings.
#[global] Hint Rewrite append_nil_l append_cons : strings.
Ltac unfold_append := autorewrite with strings in *.

Lemma startsWith_spec s pat :
  startsWith s pat = true ↔ ∃ post, s = pat +:+ post.
Proof.
  revert s; induction pat as [|p pat IH]; intros s; simpl.
  - split; [intros _; by exists s | done].
  - destruct s as [|c s]; simpl.
    + split; [done | intros [post ?]; discriminate].
    + destruct (decide (c = p)) as [->|Hne].
      * rewrite IH. split; intros [post Hpost]; exists post;
          unfold_append; congruence.
      * split; [done | intros [post ?]; unfold_append; congruence].
Qed.

Lemma includes_spec s pat : includes s pat = true ↔ occurs pat s.
Proof.
  unfold occurs. induction s as [|c s IH]; simpl.
  - rewrite orb_false_r, startsWith_spec. split.
    + intros [post ->]. by exists "", post.
    + intros ([|? pre] & post & Heq); unfold_append;
        [by exists post | discriminate].
  - rewrite orb_true_iff, IH, startsWith_spec. split.
    + intros [[post ->] | (pre & post & ->)].
      * by exists "", post.
      * by exists (String c pre), post.
    + intros ([|c' pre] & post & Heq); unfold_append.
      * left. by exists post.
      * right. exists pre, post. congruence.
Qed.

Lemma toLowerCase_app s1 s2 :
  toLowerCase (s1 +:+ s2) = toLowerCase s1 +:+ toLowerCase s2.
Proof.
  induction s1 as [|c s1 IH]; simpl; unfold_append; [done |].
  simpl. by rewrite IH.
Qed.

Lemma toLowerCase_split s a b :
  toLowerCase s = a +:+ b →
  ∃ a' b', s = a' +:+ b' ∧ toLowerCase a' = a ∧ toLowerCase b' = b.
Proof.
  revert s; induction a as [|c a IH]; intros s; unfold_append.
  - intros Hs. by exists "", s.
  - destruct s as [|c' s]; simpl; [done |].
    intros [= Hc Hs]. destruct (IH _ Hs) as (a' & b' & -> & <- & <-).
    exists (String c' a'), b'. simpl. by rewrite Hc.
Qed.

(** The test the component runs, [name.toLowerCase().includes(word)], finds
    exactly the names that contain [word] when case is ignored, for every
    [word] written in lower case. *)
Lemma includes_toLowerCase name word :
  toLowerCase word = word →
  includes (toLowerCase name) word = true ↔ contains_ignoring_case name word.
Proof.
  intros Hword. rewrite includes_spec. unfold occurs, contains_ignoring_case.
  rewrite Hword. split.
  - intros (pre & post & Heq).
    apply toLowerCase_split in Heq as (pre' & rest & -> & <- & Hrest).
    apply toLowerCase_split in Hrest as (mid & post' & -> & <- & <-).
    by exists pre', mid, post'.
  - intros (pre & mid & post & -> & <-).
    exists (toLowerCase pre), (toLowerCase post).
    by rewrite !toLowerCase_app.
Qed.

(** First occurrences *)

Lemma filter_all (P : string → Prop) `{!∀ m, Decision (P m)}
    (l : list string) :
  (∀ m, m ∈ l → P m) → filter P l = l.
Proof.
  induction l as [|m l IH]; intros HP; [done |].
  rewrite filter_cons_True by (apply HP; left).
  rewrite IH; [done |]. intros m' ?. apply HP. by right.
Qed.

Lemma elem_of_firstOccurrences (n : string) l :
  n ∈ firstOccurrences l ↔ n ∈ l.
Proof.
  revert n. induction l as [|m l IH]; intros n; simpl; [done |].
  rewrite !elem_of_cons, list_elem_of_filter, IH.
  destruct (decide (n = m)); naive_solver.
Qed.

Lemma NoDup_firstOccurrences l : NoDup (firstOccurrences l).
Proof.
  induction l as [|m l IH]; simpl; [constructor |].
  constructor; [| by apply NoDup_filter].
  rewrite list_elem_of_filter. naive_solver.
Qed.

Lemma firstOccurrences_NoDup l : NoDup l → firstOccurrences l = l.
Proof.
  induction 1 as [|m l Hnin Hnd IH]; simpl; [done |].
  rewrite IH. f_equal. apply filter_all. by intros n Hn ->.
Qed.

Section RecordFacts.
Context {V : Type}.
Implicit Types (r : record V) (k : string) (v : V).

Lemma rec_get_set_eq k v r : rec_get k (rec_set k v r) = Some v.
Proof.
  induction r as [|[k' v'] r IH]; simpl.
  - by rewrite decide_True.
  - destruct (decide (k' = k)) as [->|Hne]; simpl.
    + by rewrite decide_True.
    + by rewrite decide_False.
Qed.

Lemma rec_get_set_ne k k' v r :
  k ≠ k' → rec_get k' (rec_set k v r) = rec_get k' r.
Proof.
  intros Hne. induction r as [|[k0 v0] r IH]; simpl.
  - by rewrite decide_False.
  - destruct (decide (k0 = k)) as [->|Hne0]; simpl.
    + by rewrite !decide_False.
    + by rewrite IH.
Qed.

Lemma rec_keys_nil : rec_keys (V:=V) [] = [].
Proof. reflexivity. Qed.

Lemma rec_keys_cons k v r : rec_keys ((k, v) :: r) = k :: rec_keys r.
Proof. reflexivity. Qed.

Lemma rec_keys_app r1 r2 : rec_keys (r1 ++ r2) = rec_keys r1 ++ rec_keys r2.
Proof. apply fmap_app. Qed.

Lemma rec_get_is_Some k r : is_Some (rec_get k r) ↔ k ∈ rec_keys r.
Proof.
  induction r as [|[k' v'] r IH]; simpl.
  - rewrite rec_keys_nil, elem_of_nil. split; [by intros [? ?] | done].
  - rewrite rec_keys_cons, elem_of_cons.
    destruct (decide (k' = k)) as [->|Hne].
    + split; eauto.
    + rewrite IH. split; [by right | by intros [-> | ?]].
Qed.

Lemma rec_get_None k r : rec_get k r = None ↔ k ∉ rec_keys r.
Proof. by rewrite eq_None_not_Some, rec_get_is_Some. Qed.

Lemma rec_set_fresh k v r :
  k ∉ rec_keys r → rec_set k v r = r ++ [(k, v)].
Proof.
  induction r as [|[k' v'] r IH]; simpl; [done |].
  rewrite rec_keys_cons, not_elem_of_cons. intros [Hne Hnin].
  rewrite decide_False by done. by rewrite IH.
Qed.

Lemma rec_keys_set_known k v r :
  k ∈ rec_keys r → rec_keys (rec_set k v r) = rec_keys r.
Proof.
  induction r as [|[k' v'] r IH]; simpl.
  - by rewrite rec_keys_nil, elem_of_nil.
  - rewrite rec_keys_cons, elem_of_cons.
    destruct (decide (k' = k)) as [->|Hne]; [done |].
    intros [-> | Hin]; [done |]. by rewrite !rec_keys_cons, IH.
Qed.

Lemma rec_keys_set k v r :
  rec_keys (rec_set k v r) =
  if decide (k ∈ rec_keys r) then rec_keys r else rec_keys r ++ [k].
Proof.
  case_decide as Hin.
  - by apply rec_keys_set_known.
  - by rewrite rec_set_fresh, rec_keys_app.
Qed.

Lemma rec_keys_set_NoDup k v r :
  NoDup (rec_keys r) → NoDup (rec_keys (rec_set k v r)).
Proof.
  intros Hnd. rewrite rec_keys_set. case_decide; [done |].
  apply NoDup_app. split_and!; [done | | apply NoDup_singleton].
  intros k' Hin ->%list_elem_of_singleton. done.
Qed.

Lemma rec_values_cons k v r : rec_values ((k, v) :: r) = v :: rec_values r.
Proof. reflexivity. Qed.

Lemma rec_get_elem_of k v r : rec_get k r = Some v → (k, v) ∈ r.
Proof.
  induction r as [|[k' v'] r IH]; simpl; [done |].
  destruct (decide (k' = k)) as [->|Hne].
  - intros [= ->]. left.
  - intros ?. right. auto.
Qed.

(** In a record whose values are pairwise distinct, a value is held by
    one property only. *)
Lemma rec_get_inj k1 k2 v r :
  NoDup (rec_values r) →
  rec_get k1 r = Some v → rec_get k2 r = Some v → k1 = k2.
Proof.
  intros Hnd H1%rec_get_elem_of H2%rec_get_elem_of. revert Hnd H1 H2.
  induction r as [|[k' v'] r IH]; [by intros _ ?%elem_of_nil |].
  rewrite rec_values_cons, NoDup_cons, !elem_of_cons.
  intros [Hnin Hnd] [H1 | H1] [H2 | H2]; simplify_eq; auto.
  - destruct Hnin. unfold rec_values.
    by apply (list_elem_of_fmap_2 snd _ (k2, v')).
  - destruct Hnin. unfold rec_values.
    by apply (list_elem_of_fmap_2 snd _ (k1, v')).
Qed.

Lemma rec_set_values k v r w :
  w ∈ rec_values (rec_set k v r) → w = v ∨ w ∈ rec_values r.
Proof.
  induction r as [|[k' v'] r IH]; simpl.
  - rewrite rec_values_cons, elem_of_cons. intros [-> | ?]; auto.
  - destruct (decide (k' = k)) as [->|Hne];
      rewrite !rec_values_cons, !elem_of_cons; intros [-> | Hin]; auto.
    apply IH in Hin as [-> | ?]; auto.
Qed.

Lemma rec_set_values_NoDup k v r :
  v ∉ rec_values r → NoDup (rec_values r) →
  NoDup (rec_values (rec_set k v r)).
Proof.
  induction r as [|[k' v'] r IH]; simpl.
  - intros _ _. rewrite rec_values_cons. apply NoDup_singleton.
  - rewrite rec_values_cons, not_elem_of_cons, NoDup_cons.
    intros [Hne Hnin] [Hnin' Hnd].
    destruct (decide (k' = k)) as [->|Hnek];
      rewrite rec_values_cons, NoDup_cons; split; auto.
    intros [-> | Hin]%rec_set_values; done.
Qed.
End RecordFacts.

End JSFacts.

(** * Facts about the model adapter *)

Module ModelFacts.
Import JS JSFacts Model.

Section Discovery.
Context {num : Type}.
Implicit Types (object : Object3D (num:=num)).
Implicit Types (objects : list (Object3D (num:=num))).
Implicit Types (panels : record ref) (n : string).

(** *** The name test *)

Lemma contains_ignoring_case_nonempty n word :
  word ≠ "" → contains_ignoring_case n word → n ≠ "".
Proof.
  intros Hword (pre & mid & post & -> & Hmid) Hempty.
  destruct pre; [| discriminate]. destruct mid; [| discriminate].
  simpl in Hmid. by destruct word.
Qed.

(** The test of the first traversal accepts exactly the names that
    contain one of the four words, case ignored. *)
Lemma isPanelName_qualifies n : isPanelName n = true ↔ qualifies n.
Proof.
  unfold isPanelName, qualifies, panelWords.
  rewrite andb_true_iff, !orb_true_iff, negb_true_iff, String.eqb_neq.
  rewrite !includes_toLowerCase by reflexivity. split.
  - intros [_ [[[H | H] | H] | H]]; eexists; (split; [| exact H]);
      rewrite !elem_of_cons; auto.
  - intros (word & Hin & H). rewrite !elem_of_cons, elem_of_nil in Hin.
    split.
    + apply (contains_ignoring_case_nonempty _ word); [| done].
      destruct Hin as [-> | [-> | [-> | [-> | []]]]]; discriminate.
    + destruct Hin as [-> | [-> | [-> | [-> | []]]]]; auto.
Qed.

Lemma isPanelName_not_qualifies n : isPanelName n = false ↔ ¬ qualifies n.
Proof. rewrite <-isPanelName_qualifies. by destruct (isPanelName n). Qed.

Lemma isPanelName_syntheticName k : isPanelName (syntheticName k) = true.
Proof. reflexivity. Qed.

Lemma syntheticName_inj k1 k2 : syntheticName k1 = syntheticName k2 → k1 = k2.
Proof.
  unfold syntheticName. intros H. apply (inj (String.app "Panel_")) in H.
  by apply (inj pretty) in H.
Qed.

(** *** The first traversal *)

Lemma findByName_keys i objects panels :
  rec_keys (findByName i objects panels) =
  rec_keys panels ++
  filter (λ n, n ∉ rec_keys panels)
    (firstOccurrences
       (filter (λ n, isPanelName n = true) (namesOf objects))).
Proof.
  revert i panels. induction objects as [|object rest IH]; intros i panels.
  { simpl. by rewrite app_nil_r. }
  simpl. rewrite IH. change (namesOf (object :: rest)) with
    (name object :: namesOf rest).
  destruct (isPanelName (name object)) eqn:Hname.
  - rewrite (filter_cons_True _ (name object)) by done. simpl.
    rewrite rec_keys_set. case_decide as Hin.
    + rewrite filter_cons_False by auto.
      by rewrite list_filter_filter_l by (by intros m ? ->).
    + rewrite filter_cons_True by done.
      rewrite <-(assoc_L (++)). simpl. do 2 f_equal.
      rewrite list_filter_filter. apply list_filter_iff. intros m.
      rewrite elem_of_app, list_elem_of_singleton. tauto.
  - by rewrite filter_cons_False by (by rewrite Hname).
Qed.

Lemma findByName_keys_empty objects :
  rec_keys (findByName 0 objects []) =
  firstOccurrences (filter (λ n, isPanelName n = true) (namesOf objects)).
Proof.
  rewrite findByName_keys, rec_keys_nil. simpl.
  apply filter_all. intros m _. apply not_elem_of_nil.
Qed.

Lemma findByName_nothing objects :
  (∀ object, object ∈ objects → isPanelName (name object) = false) →
  findByName 0 objects [] = [].
Proof.
  generalize 0. induction objects as [|object rest IH]; intros i Hnone.
  - done.
  - simpl. rewrite Hnone by left. apply IH. intros ? ?. apply Hnone.
    by right.
Qed.

(** *** The second traversal *)

Lemma meshRefs_length i objects :
  length (meshRefs i objects) = meshCount objects.
Proof.
  unfold meshCount. revert i.
  induction objects as [|object rest IH]; intros i; [done |]. simpl.
  destruct (isMesh object) eqn:Hmesh.
  - rewrite filter_cons_True by done. simpl. by rewrite IH.
  - rewrite filter_cons_False by (by rewrite Hmesh). by rewrite IH.
Qed.

Lemma meshCount_cons object rest :
  meshCount (object :: rest) =
  if isMesh object then S (meshCount rest) else meshCount rest.
Proof.
  unfold meshCount. destruct (isMesh object) eqn:Hmesh.
  - by rewrite filter_cons_True by done.
  - by rewrite filter_cons_False by (by rewrite Hmesh).
Qed.

(** Started with [panelCount] names taken, the second traversal appends
    one fresh binding per mesh, numbered on from [panelCount]. *)
Lemma nameMeshes_panels i objects panelCount panels :
  (∀ k, syntheticName k ∈ rec_keys panels → k < panelCount) →
  (nameMeshes i objects panelCount panels).2 =
  panels ++ zip (syntheticName <$> seq panelCount (meshCount objects))
                (meshRefs i objects).
Proof.
  revert i panelCount panels.
  induction objects as [|object rest IH]; intros i panelCount panels Hfresh.
  { simpl. by rewrite app_nil_r. }
  simpl. rewrite meshCount_cons. fold (isMesh object).
  destruct (isMesh object).
  - destruct (nameMeshes _ rest _ _) as [rest' panels'] eqn:Hrest.
    simpl. change panels' with (rest', panels').2. rewrite <-Hrest.
    rewrite rec_set_fresh.
    2:{ intros Hin. apply Hfresh in Hin. lia. }
    rewrite IH.
    + by rewrite <-(assoc_L (++)).
    + intros k. rewrite rec_keys_app, elem_of_app.
      intros [Hin | Hin%list_elem_of_singleton].
      * apply Hfresh in Hin. lia.
      * apply syntheticName_inj in Hin. lia.
  - destruct (nameMeshes _ rest _ _) as [rest' panels'] eqn:Hrest.
    simpl. change panels' with (rest', panels').2. rewrite <-Hrest.
    by apply IH.
Qed.

(** What the second traversal leaves of an object: objects that are not
    meshes are kept, meshes carry a synthetic name. *)
Lemma nameMeshes_objects i objects panelCount panels object :
  object ∈ (nameMeshes i objects panelCount panels).1 →
  (object ∈ objects ∧ isMesh object = false) ∨
  (∃ k, panelCount ≤ k < panelCount + meshCount objects ∧
        name object = syntheticName k).
Proof.
  revert i panelCount panels.
  induction objects as [|object' rest IH]; intros i panelCount panels.
  { simpl. by intros ?%elem_of_nil. }
  simpl. rewrite meshCount_cons. fold (isMesh object').
  destruct (isMesh object') eqn:Hmesh.
  - destruct (nameMeshes _ rest _ _) as [rest' panels'] eqn:Hrest.
    simpl. intros [-> | Hin]%elem_of_cons.
    + right. exists panelCount. split; [lia | done].
    + change rest' with (rest', panels').1 in Hin. rewrite <-Hrest in Hin.
      apply IH in Hin as [[? ?] | (k & ? & ?)].
      * left. split; [by right | done].
      * right. exists k. split; [lia | done].
  - destruct (nameMeshes _ rest _ _) as [rest' panels'] eqn:Hrest.
    simpl. intros [-> | Hin]%elem_of_cons.
    + left. split; [by left | done].
    + change rest' with (rest', panels').1 in Hin. rewrite <-Hrest in Hin.
      apply IH in Hin as [[? ?] | (k & ? & ?)].
      * left. split; [by right | done].
      * right. exists k. split; [lia | done].
Qed.

(** The mesh visited [k]-th bears the [k]-th synthetic name afterwards. *)
Lemma nameMeshes_renamed i objects panelCount panels k r :
  meshRefs i objects !! k = Some r →
  i ≤ r ∧
  name <$> (nameMeshes i objects panelCount panels).1 !! (r - i) =
    Some (syntheticName (panelCount + k)).
Proof.
  revert i panelCount panels k.
  induction objects as [|object rest IH]; intros i panelCount panels k;
    [done |].
  simpl. fold (isMesh object). destruct (isMesh object).
  - destruct (nameMeshes _ rest _ _) as [rest' panels'] eqn:Hrest.
    destruct k as [|k]; simpl.
    + intros [= <-]. rewrite Nat.sub_diag, Nat.add_0_r. done.
    + intros Hr. apply (IH _ (S panelCount) (rec_set
        (name (rename (syntheticName panelCount) object)) i panels))
        in Hr as [Hle Hname].
      simpl in Hname. rewrite Hrest in Hname. simpl in Hname.
      split; [lia |].
      replace (r - i) with (S (r - S i)) by lia. simpl.
      by replace (panelCount + S k) with (S panelCount + k) by lia.
  - destruct (nameMeshes _ rest _ _) as [rest' panels'] eqn:Hrest.
    intros Hr. apply (IH _ panelCount panels) in Hr as [Hle Hname].
    rewrite Hrest in Hname. simpl in *. split; [lia |].
    by replace (r - i) with (S (r - S i)) by lia.
Qed.

(** *** The two ways discovery goes *)

Lemma firstOccurrences_nil_inv (l : list string) :
  firstOccurrences l = [] → l = [].
Proof. by destruct l. Qed.

Lemma discoverObjects_cases objects :
  ((∃ object, object ∈ objects ∧ qualifies (name object)) ∧
   discoverObjects objects = (objects, findByName 0 objects []) ∧
   rec_keys (findByName 0 objects []) =
     firstOccurrences
       (filter (λ n, isPanelName n = true) (namesOf objects))) ∨
  ((∀ object, object ∈ objects → ¬ qualifies (name object)) ∧
   discoverObjects objects = nameMeshes 0 objects 0 []).
Proof.
  unfold discoverObjects.
  destruct (length (rec_keys (findByName 0 objects [])) =? 0) eqn:Hlen.
  - right. apply Nat.eqb_eq, nil_length_inv in Hlen.
    rewrite findByName_keys_empty in Hlen.
    apply firstOccurrences_nil_inv in Hlen.
    assert (∀ object, object ∈ objects → ¬ qualifies (name object))
      as Hnone.
    { intros object Hin Hq%isPanelName_qualifies.
      eapply (filter_nil_not_elem_of _ _ (name object)) in Hlen; [| done].
      apply Hlen. unfold namesOf. by apply list_elem_of_fmap_2. }
    split; [done |]. rewrite findByName_nothing; [done |].
    intros object Hin. by apply isPanelName_not_qualifies, Hnone.
  - left. apply Nat.eqb_neq in Hlen. split_and!; [| done |].
    + rewrite findByName_keys_empty in Hlen.
      destruct (firstOccurrences _) as [|n l] eqn:Hfirst; [done |].
      assert (n ∈ firstOccurrences
                (filter (λ n, isPanelName n = true) (namesOf objects)))
        as Hn by (rewrite Hfirst; left).
      apply elem_of_firstOccurrences, list_elem_of_filter in Hn
        as [Hq Hn].
      apply list_elem_of_fmap in Hn as (object & -> & Hin).
      exists object. split; [done |]. by apply isPanelName_qualifies.
    + apply findByName_keys_empty.
Qed.

Lemma nameMeshes_keys objects :
  rec_keys (nameMeshes 0 objects 0 []).2 =
  syntheticName <$> seq 0 (meshCount objects).
Proof.
  rewrite nameMeshes_panels.
  2:{ intros k. rewrite rec_keys_nil. by intros ?%elem_of_nil. }
  simpl. unfold rec_keys. apply fst_zip.
  by rewrite length_fmap, length_seq, meshRefs_length.
Qed.

Lemma discoverObjects_keys_qualify objects n :
  n ∈ rec_keys (discoverObjects objects).2 → qualifies n.
Proof.
  destruct (discoverObjects_cases objects)
    as [(_ & -> & Hkeys) | (_ & ->)]; simpl.
  - rewrite Hkeys, elem_of_firstOccurrences, list_elem_of_filter.
    intros [? _]. by apply isPanelName_qualifies.
  - rewrite nameMeshes_keys. intros (k & -> & _)%list_elem_of_fmap.
    apply isPanelName_qualifies, isPanelName_syntheticName.
Qed.

(** *** What the names of [panels] refer to *)

(** The first traversal binds a name to an object that bears it. *)
Lemma findByName_bound (visited rest : list (Object3D (num:=num))) panels :
  (∀ n i, rec_get n panels = Some i →
          name <$> (visited ++ rest) !! i = Some n) →
  ∀ n i, rec_get n (findByName (length visited) rest panels) = Some i →
         name <$> (visited ++ rest) !! i = Some n.
Proof.
  revert visited panels. induction rest as [|object rest IH];
    intros visited panels Hbound; [done |].
  simpl. intros n i.
  replace (visited ++ object :: rest) with ((visited ++ [object]) ++ rest) in *
    by (by rewrite <-(assoc_L (++))).
  replace (S (length visited)) with (length (visited ++ [object]))
    by (rewrite length_app; simpl; lia).
  apply IH. intros n' i'. destruct (isPanelName (name object)); [| by auto].
  destruct (decide (name object = n')) as [<- | Hne].
  - rewrite rec_get_set_eq. intros [= <-].
    rewrite <-(assoc_L (++)). simpl.
    by rewrite (list_lookup_middle visited rest object).
  - rewrite rec_get_set_ne by done. auto.
Qed.

(** So does discovery as a whole, the fallback included: the name is the
    one the object bears once discovery is over. *)
Lemma discoverObjects_bound objects n i :
  rec_get n (discoverObjects objects).2 = Some i →
  name <$> (discoverObjects objects).1 !! i = Some n.
Proof.
  destruct (discoverObjects_cases objects) as [(_ & -> & _) | (_ & ->)].
  - simpl. apply (findByName_bound [] objects []). done.
  - rewrite nameMeshes_panels.
    2:{ intros k. rewrite rec_keys_nil. by intros ?%elem_of_nil. }
    simpl. intros (k & Hk)%rec_get_elem_of%list_elem_of_lookup_1.
    apply lookup_zip_with_Some in Hk as (n' & i' & [= -> ->] & Hn & Hi).
    apply list_lookup_fmap_Some in Hn as (k' & -> & Hk').
    apply lookup_seq in Hk' as [-> _].
    apply (nameMeshes_renamed _ _ 0 []) in Hi as [_ Hname].
    by rewrite Nat.sub_0_r in Hname.
Qed.

(** *** Keys are never array indices *)

Lemma lower_ascii_digit c : isDigit c = true → lower_ascii c = c.
Proof.
  unfold isDigit, lower_ascii. cbv zeta.
  rewrite andb_true_iff, !Nat.leb_le. intros [? ?].
  destruct (65 <=? nat_of_ascii c) eqn:Hle; [| done].
  apply Nat.leb_le in Hle. lia.
Qed.

Lemma toLowerCase_digitsOnly s : digitsOnly s = true → toLowerCase s = s.
Proof.
  induction s as [|c s IH]; simpl; [done |].
  rewrite andb_true_iff. intros [Hc Hs].
  by rewrite lower_ascii_digit, IH.
Qed.

Lemma digitsOnly_app s1 s2 :
  digitsOnly (s1 +:+ s2) = digitsOnly s1 && digitsOnly s2.
Proof.
  induction s1 as [|c s1 IH]; unfold_append; simpl; [done |].
  by rewrite IH, andb_assoc.
Qed.

(** No name that passes the test of the first traversal, and no synthetic
    name, is made of digits only: the keys of [panels] are enumerated in
    the order of their first assignment. *)
Lemma discovered_name_has_letter objects n :
  n ∈ rec_keys (discoverObjects objects).2 → digitsOnly n = false.
Proof.
  intros (word & Hword & Hq)%discoverObjects_keys_qualify.
  destruct (digitsOnly n) eqn:Hdigits; [| done].
  apply includes_toLowerCase, includes_spec in Hq.
  2:{ unfold panelWords in Hword. rewrite !elem_of_cons, elem_of_nil in Hword.
      by destruct Hword as [-> | [-> | [-> | [-> | []]]]]. }
  rewrite toLowerCase_digitsOnly in Hq by done.
  destruct Hq as (pre & post & ->).
  rewrite !digitsOnly_app, !andb_true_iff in Hdigits.
  destruct Hdigits as (_ & Hw & _).
  unfold panelWords in Hword. rewrite !elem_of_cons, elem_of_nil in Hword.
  by destruct Hword as [-> | [-> | [-> | [-> | []]]]].
Qed.

(** No reported name is the name of a member of [Object.prototype]: reading
    and writing [panels] by such names only meets own properties. *)
Lemma discovered_name_not_inherited objects n :
  n ∈ rec_keys (discoverObjects objects).2 → n ∉ objectPrototypeMembers.
Proof.
  intros Hq%discoverObjects_keys_qualify%isPanelName_qualifies Hin.
  assert (Forall (λ m, isPanelName m = false) objectPrototypeMembers)
    as Hnone by (repeat constructor).
  rewrite Forall_forall in Hnone. apply Hnone in Hin. congruence.
Qed.

(** *** Discovery, the fallback *)

(** C3. When no node name contains "panel", "solar", "array" or "wing",
    case ignored, and the asset has N nodes of type [Mesh], discovery
    reports exactly [Panel_0], ..., [Panel_{N-1}], in this order, and the
    name [Panel_k] is that of the mesh visited [k]-th: it is bound to
    that mesh in [panels] and the mesh bears it afterwards. *)
Theorem fallback_reports_synthetic_names (scene : SceneGraph (num:=num)) :
  (∀ object, object ∈ traverse scene → ¬ qualifies (name object)) →
  let N := meshCount (traverse scene) in
  panelsFound scene = (λ k, "Panel_" +:+ pretty k) <$> seq 0 N ∧
  (discover scene).2 =
    zip ((λ k, "Panel_" +:+ pretty k) <$> seq 0 N)
        (meshRefs 0 (traverse scene)) ∧
  (∀ k r, meshRefs 0 (traverse scene) !! k = Some r →
     name <$> (discover scene).1 !! r = Some ("Panel_" +:+ pretty k)).
Proof.
  intros Hnone N. unfold panelsFound, discover.
  destruct (discoverObjects_cases (traverse scene))
    as [((object & Hin & Hq) & _) | (_ & ->)].
  { by destruct (Hnone object Hin). }
  split_and!.
  - apply nameMeshes_keys.
  - rewrite nameMeshes_panels; [done |].
    intros k. rewrite rec_keys_nil. by intros ?%elem_of_nil.
  - intros k r Hr.
    apply (nameMeshes_renamed _ _ 0 []) in Hr as [_ Hname].
    by rewrite Nat.sub_0_r in Hname.
Qed.

(** *** Discovery, by name *)

(** C4. Discovery reports a node exactly when its name contains "panel",
    "solar", "array" or "wing", case ignored: this holds of every node of
    the asset under the name the asset gives it, and of every node under
    the name it bears once discovery is over (in the fallback the meshes
    have been renamed [Panel_<i>], names that contain "panel").  Every
    reported name contains one of the words and is bound, in [panels], to
    a node that bears it.  When some name of the asset contains one of the
    words, the report is the sequence of those names in visiting order,
    each at its first occurrence; for nodes named Body, SolarWingLeft,
    SolarWingRight, Camera it is SolarWingLeft, SolarWingRight. *)
Theorem discovery_reports_qualifying_names (scene : SceneGraph (num:=num)) :
  (∀ object, object ∈ traverse scene →
     name object ∈ panelsFound scene ↔ qualifies (name object)) ∧
  (∀ object, object ∈ (discover scene).1 →
     name object ∈ panelsFound scene ↔ qualifies (name object)) ∧
  (∀ n, n ∈ panelsFound scene →
     qualifies n ∧
     ∃ i, rec_get n (discover scene).2 = Some i ∧
          name <$> (discover scene).1 !! i = Some n) ∧
  ((∃ object, object ∈ traverse scene ∧ qualifies (name object)) →
     panelsFound scene =
     firstOccurrences
       (filter (λ n, isPanelName n = true) (namesOf (traverse scene)))) ∧
  (namesOf (traverse scene) =
     ["Body"; "SolarWingLeft"; "SolarWingRight"; "Camera"] →
   panelsFound scene = ["SolarWingLeft"; "SolarWingRight"]).
Proof.
  unfold panelsFound, discover. set (objects := traverse scene).
  assert (∀ n, n ∈ rec_keys (discoverObjects objects).2 → qualifies n)
    as Hsound by apply discoverObjects_keys_qualify.
  assert (∀ n, n ∈ rec_keys (discoverObjects objects).2 →
            qualifies n ∧
            ∃ i, rec_get n (discoverObjects objects).2 = Some i ∧
                 name <$> (discoverObjects objects).1 !! i = Some n)
    as Hbound.
  { intros n Hn. split; [by apply Hsound |].
    destruct (proj2 (rec_get_is_Some n _) Hn) as [i Hi].
    exists i. split; [done |]. by apply discoverObjects_bound. }
  destruct (discoverObjects_cases objects)
    as [(Hsome & Hd & Hkeys) | (Hnone & Hd)].
  - rewrite Hd in *. simpl in *. rewrite Hkeys. split_and!.
    + intros object Hin. split; [rewrite <-Hkeys; apply Hsound |].
      intros Hq. rewrite elem_of_firstOccurrences, list_elem_of_filter.
      split; [by apply isPanelName_qualifies |].
      by apply list_elem_of_fmap_2.
    + intros object Hin. split; [rewrite <-Hkeys; apply Hsound |].
      intros Hq. rewrite elem_of_firstOccurrences, list_elem_of_filter.
      split; [by apply isPanelName_qualifies |].
      by apply list_elem_of_fmap_2.
    + intros n. rewrite <-Hkeys. apply Hbound.
    + done.
    + by intros ->.
  - rewrite Hd in *. split_and!.
    + intros object Hin. split; [apply Hsound |].
      intros Hq. by destruct (Hnone object Hin).
    + intros object Hin. split; [apply Hsound |].
      intros Hq. rewrite nameMeshes_keys.
      apply nameMeshes_objects in Hin as [[Hin _] | (k & Hk & ->)].
      * by destruct (Hnone object Hin).
      * apply list_elem_of_fmap_2, elem_of_seq. lia.
    + apply Hbound.
    + intros (object & Hin & Hq). by destruct (Hnone object Hin).
    + intros Hnames. exfalso.
      assert (∃ object, object ∈ objects ∧ name object = "SolarWingLeft")
        as (object & Hin & Hname).
      { assert ("SolarWingLeft" ∈ namesOf objects) as Hn
          by (rewrite Hnames; set_solver).
        apply list_elem_of_fmap in Hn as (object & ? & ?). eauto. }
      apply (Hnone object Hin), isPanelName_qualifies. by rewrite Hname.
Qed.

(** *** The record kept as [panelObjects] *)

Lemma findByName_values i objects panels :
  (∀ r, r ∈ rec_values panels → r < i) → NoDup (rec_values panels) →
  NoDup (rec_values (findByName i objects panels)).
Proof.
  revert i panels. induction objects as [|object rest IH];
    intros i panels Hlt Hnd; [done |].
  simpl. destruct (isPanelName (name object)).
  - apply IH.
    + intros r [-> | Hr%Hlt]%rec_set_values; lia.
    + apply rec_set_values_NoDup; [| done]. intros Hr%Hlt. lia.
  - apply IH; [| done]. intros r Hr%Hlt. lia.
Qed.

Lemma meshRefs_ge i objects r : r ∈ meshRefs i objects → i ≤ r.
Proof.
  revert i. induction objects as [|object rest IH]; intros i; simpl.
  - by intros ?%elem_of_nil.
  - destruct (isMesh object).
    + intros [-> | Hr%IH]%elem_of_cons; lia.
    + intros Hr%IH. lia.
Qed.

Lemma meshRefs_NoDup i objects : NoDup (meshRefs i objects).
Proof.
  revert i. induction objects as [|object rest IH]; intros i; simpl.
  - constructor.
  - destruct (isMesh object); [| done].
    constructor; [| done]. intros Hr%meshRefs_ge. lia.
Qed.

(** No two names of [panels] refer to the same object. *)
Lemma discoverObjects_values_NoDup objects :
  NoDup (rec_values (discoverObjects objects).2).
Proof.
  destruct (discoverObjects_cases objects) as [(_ & -> & _) | (_ & ->)].
  - simpl. apply findByName_values; [| constructor].
    by intros r ?%elem_of_nil.
  - rewrite nameMeshes_panels.
    2:{ intros k. rewrite rec_keys_nil. by intros ?%elem_of_nil. }
    simpl. unfold rec_values. rewrite snd_zip; [apply meshRefs_NoDup |].
    by rewrite length_fmap, length_seq, meshRefs_length.
Qed.
End Discovery.

(** ** More about discovery *)

Section Rediscovery.
Context {num : Type}.
Implicit Types (object : Object3D (num:=num)).
Implicit Types (objects : list (Object3D (num:=num))).
Implicit Types (panels : record ref) (n : string).

Lemma nameMeshes_cons_fst i object rest panelCount panels :
  (nameMeshes i (object :: rest) panelCount panels).1 =
  if isMesh object
  then rename (syntheticName panelCount) object ::
       (nameMeshes (S i) rest (S panelCount)
          (rec_set (syntheticName panelCount) i panels)).1
  else object :: (nameMeshes (S i) rest panelCount panels).1.
Proof.
  simpl. fold (isMesh object). destruct (isMesh object).
  - by destruct (nameMeshes _ rest _ _).
  - by destruct (nameMeshes _ rest _ _).
Qed.

(** The objects the second traversal leaves do not depend on the record
    it fills, nor on the reference it starts from. *)
Lemma nameMeshes_fst_indep i i' objects panelCount panels panels' :
  (nameMeshes i objects panelCount panels).1 =
  (nameMeshes i' objects panelCount panels').1.
Proof.
  revert i i' panelCount panels panels'.
  induction objects as [|object rest IH]; intros; [done |].
  rewrite !nameMeshes_cons_fst. destruct (isMesh object); f_equal; apply IH.
Qed.

Lemma nameMeshes_pose i objects panelCount panels :
  pose <$> (nameMeshes i objects panelCount panels).1 = pose <$> objects.
Proof.
  revert i panelCount panels.
  induction objects as [|object rest IH]; intros; [done |].
  rewrite nameMeshes_cons_fst.
  destruct (isMesh object); rewrite !fmap_cons, IH; done.
Qed.

Lemma nameMeshes_no_mesh i objects panelCount panels :
  meshCount objects = 0 →
  nameMeshes i objects panelCount panels = (objects, panels).
Proof.
  revert i. induction objects as [|object rest IH]; intros i; [done |].
  rewrite meshCount_cons. simpl. fold (isMesh object).
  destruct (isMesh object); [done |]. intros Hnone. by rewrite IH.
Qed.

Lemma nameMeshes_keeps_others i objects panelCount panels j object :
  objects !! j = Some object → isMesh object = false →
  (nameMeshes i objects panelCount panels).1 !! j = Some object.
Proof.
  revert i panelCount panels j.
  induction objects as [|object' rest IH]; intros i panelCount panels j;
    [done |].
  rewrite nameMeshes_cons_fst. destruct j as [|j]; simpl.
  - intros [= ->] ->. done.
  - intros Hj Hmesh. destruct (isMesh object'); simpl; by apply IH.
Qed.

(** Run on the objects the second traversal has renamed, the first
    traversal finds the meshes by their new names and binds them as the
    second did. *)
Lemma findByName_renamed i objects panelCount panels panels0 :
  (∀ object, object ∈ objects → isPanelName (name object) = false) →
  (∀ k, syntheticName k ∈ rec_keys panels → k < panelCount) →
  findByName i (nameMeshes i objects panelCount panels0).1 panels =
  panels ++ zip (syntheticName <$> seq panelCount (meshCount objects))
                (meshRefs i objects).
Proof.
  revert i panelCount panels panels0.
  induction objects as [|object rest IH];
    intros i panelCount panels panels0 Hnone Hfresh.
  { simpl. by rewrite app_nil_r. }
  rewrite nameMeshes_cons_fst, meshCount_cons. simpl.
  assert (∀ object, object ∈ rest → isPanelName (name object) = false)
    as Hrest by (intros ? ?; apply Hnone; by right).
  destruct (isMesh object) eqn:Hmesh; simpl.
  - rewrite (rec_set_fresh _ _ panels).
    2:{ intros Hin%Hfresh. lia. }
    rewrite IH; [by rewrite <-(assoc_L (++)) | done |].
    intros k. rewrite rec_keys_app, elem_of_app.
    intros [Hin%Hfresh | Hin%list_elem_of_singleton%syntheticName_inj]; lia.
  - rewrite Hnone by left. by apply IH.
Qed.

Lemma discoverObjects_keys_NoDup objects :
  NoDup (rec_keys (discoverObjects objects).2).
Proof.
  destruct (discoverObjects_cases objects)
    as [(_ & -> & Hkeys) | (_ & ->)]; simpl.
  - rewrite Hkeys. apply NoDup_firstOccurrences.
  - rewrite nameMeshes_keys. apply NoDup_fmap_2; [| apply NoDup_seq].
    intros k1 k2. apply syntheticName_inj.
Qed.

(** X1. Discovery is stable: run again on the objects a first run has
    left, it leaves them as they are and builds the same record, so it
    reports the same names, also after the fallback has renamed the
    meshes. *)
Theorem rediscovery_is_stable (scene : SceneGraph (num:=num)) :
  discoverObjects (discover scene).1 = discover scene.
Proof.
  unfold discover. set (objects := traverse scene).
  destruct (discoverObjects_cases objects)
    as [(_ & Hd & _) | (Hnone & Hd)]; rewrite Hd; simpl.
  { exact Hd. }
  assert (∀ object, object ∈ objects → isPanelName (name object) = false)
    as Hnames by (intros ? ?; by apply isPanelName_not_qualifies, Hnone).
  assert (∀ k, syntheticName k ∈ rec_keys (V:=ref) [] → k < 0) as Hfresh.
  { intros k. rewrite rec_keys_nil. by intros ?%elem_of_nil. }
  pose proof (nameMeshes_panels 0 objects 0 [] Hfresh) as Hpanels.
  pose proof (findByName_renamed 0 objects 0 [] [] Hnames Hfresh) as Hfound.
  simpl in Hpanels, Hfound.
  destruct (nameMeshes 0 objects 0 []) as [objects1 panels1] eqn:Hrun.
  simpl in *. subst panels1. unfold discoverObjects. rewrite Hfound.
  destruct (decide (meshCount objects = 0)) as [Hzero | Hsome].
  - rewrite nameMeshes_no_mesh in Hrun by done.
    injection Hrun as <-. rewrite Hzero. simpl.
    by rewrite nameMeshes_no_mesh.
  - assert (length (rec_keys
              (zip (syntheticName <$> seq 0 (meshCount objects))
                   (meshRefs 0 objects))) = meshCount objects) as Hlen.
    { unfold rec_keys. rewrite fst_zip.
      - by rewrite length_fmap, length_seq.
      - by rewrite length_fmap, length_seq, meshRefs_length. }
    rewrite Hlen. by destruct (meshCount objects).
Qed.

(** X2. Discovery never adds, drops or reorders an object and never
    writes a type, a rotation or a captured rotation; it leaves every
    object that is not a mesh as it is, and all of them when some name
    contains one of the four words. *)
Theorem discovery_frame (scene : SceneGraph (num:=num)) :
  length (discover scene).1 = length (traverse scene) ∧
  pose <$> (discover scene).1 = pose <$> traverse scene ∧
  (∀ i object, traverse scene !! i = Some object → isMesh object = false →
     (discover scene).1 !! i = Some object) ∧
  ((∃ object, object ∈ traverse scene ∧ qualifies (name object)) →
     (discover scene).1 = traverse scene).
Proof.
  unfold discover. set (objects := traverse scene).
  assert (pose <$> (discoverObjects objects).1 = pose <$> objects) as Hpose.
  { destruct (discoverObjects_cases objects) as [(_ & -> & _) | (_ & ->)];
      [done | apply nameMeshes_pose]. }
  split_and!.
  - by rewrite <-(length_fmap pose), Hpose, length_fmap.
  - done.
  - intros i object Hi Hmesh.
    destruct (discoverObjects_cases objects) as [(_ & -> & _) | (_ & ->)];
      [done | by apply nameMeshes_keeps_others].
  - intros (object & Hin & Hq).
    destruct (discoverObjects_cases objects)
      as [(_ & -> & _) | (Hnone & _)]; [done |].
    by destruct (Hnone object Hin).
Qed.

(** X3. The reported names are pairwise distinct, and no two of them are
    bound to the same object. *)
Theorem discovery_is_injective (scene : SceneGraph (num:=num)) :
  NoDup (panelsFound scene) ∧
  NoDup (rec_values (discover scene).2) ∧
  (∀ n1 n2 i, rec_get n1 (discover scene).2 = Some i →
              rec_get n2 (discover scene).2 = Some i → n1 = n2).
Proof.
  unfold panelsFound, discover. split_and!.
  - apply discoverObjects_keys_NoDup.
  - apply discoverObjects_values_NoDup.
  - intros n1 n2 i. apply rec_get_inj, discoverObjects_values_NoDup.
Qed.

(** X4. Discovery reports nothing exactly when no name contains one of the
    four words and the asset has no object of type [Mesh]. *)
Theorem discovery_reports_nothing_iff (scene : SceneGraph (num:=num)) :
  panelsFound scene = [] ↔
  (∀ object, object ∈ traverse scene → ¬ qualifies (name object)) ∧
  meshCount (traverse scene) = 0.
Proof.
  unfold panelsFound, discover. set (objects := traverse scene).
  destruct (discoverObjects_cases objects)
    as [((object & Hin & Hq) & -> & Hkeys) | (Hnone & ->)]; simpl.
  - split.
    + intros Hnil. exfalso.
      assert (name object ∈ rec_keys (findByName 0 objects [])) as Hn.
      { rewrite Hkeys, elem_of_firstOccurrences, list_elem_of_filter.
        split; [by apply isPanelName_qualifies |].
        by apply list_elem_of_fmap_2. }
      rewrite Hnil in Hn. by apply elem_of_nil in Hn.
    + intros [Hnone _]. by destruct (Hnone object Hin).
  - rewrite nameMeshes_keys. split.
    + intros Hnil. split; [done |].
      apply (f_equal length) in Hnil.
      by rewrite length_fmap, length_seq in Hnil.
    + intros [_ ->]. done.
Qed.
End Rediscovery.

(** ** More about the rotation effects *)

Section Reach.
Context {num : Type}.
Implicit Types (panelObjects : record ref).
Implicit Types (panelRotations : record (RotationArray (num:=num))).

(** *** What the record of panels finds *)

Lemma inheritedOnly_spec panelObjects k :
  inheritedOnly panelObjects k = true ↔
  k ∈ objectPrototypeMembers ∧ k ∉ rec_keys panelObjects.
Proof.
  unfold inheritedOnly, member. rewrite <-rec_get_None.
  destruct (rec_get k panelObjects); [naive_solver |].
  case_bool_decide; naive_solver.
Qed.

Lemma reached_all panelObjects
    (entries : list (string * RotationArray (num:=num))) :
  (∀ k, k ∈ rec_keys entries → k ∈ objectPrototypeMembers →
        k ∈ rec_keys panelObjects) →
  reached panelObjects entries = entries.
Proof.
  induction entries as [|[k r] rest IH]; [done |].
  rewrite rec_keys_cons. intros Hown. simpl.
  destruct (inheritedOnly panelObjects k) eqn:Hk.
  - apply inheritedOnly_spec in Hk as [Hmember Hnin].
    destruct Hnin. apply Hown; [left | done].
  - rewrite IH; [done |]. intros k' Hin. apply Hown. by right.
Qed.

Lemma reached_keys panelObjects k
    (entries : list (string * RotationArray (num:=num))) :
  k ∈ rec_keys (reached panelObjects entries) → k ∈ rec_keys entries.
Proof.
  induction entries as [|[k' r] rest IH]; [done |]. simpl.
  destruct (inheritedOnly panelObjects k').
  - by intros ?%elem_of_nil.
  - rewrite !rec_keys_cons, !elem_of_cons. intros [-> | Hin]; auto.
Qed.

Lemma reached_keys_NoDup panelObjects
    (entries : list (string * RotationArray (num:=num))) :
  NoDup (rec_keys entries) → NoDup (rec_keys (reached panelObjects entries)).
Proof.
  induction entries as [|[k r] rest IH]; [done |]. simpl.
  rewrite rec_keys_cons, NoDup_cons. intros [Hnin Hnd].
  destruct (inheritedOnly panelObjects k); [apply NoDup_nil_2 |].
  rewrite rec_keys_cons, NoDup_cons. split; [| auto].
  intros Hin. by apply Hnin, (reached_keys panelObjects).
Qed.

Lemma throws_spec panelObjects panelRotations :
  throws panelObjects panelRotations = true ↔
  rec_keys panelObjects ≠ [] ∧
  ∃ k, k ∈ rec_keys panelRotations ∧ k ∈ objectPrototypeMembers ∧
       k ∉ rec_keys panelObjects.
Proof.
  unfold throws. rewrite andb_true_iff, existsb_exists.
  assert ((0 <? length (rec_keys panelObjects))%nat = true ↔
          rec_keys panelObjects ≠ []) as ->.
  { rewrite Nat.ltb_lt. destruct (rec_keys panelObjects); simpl; [| split].
    - split; [lia | done].
    - done.
    - lia. }
  apply and_iff_compat_l. split.
  - intros ([k r] & Hin%list_elem_of_In & Hk%inheritedOnly_spec).
    exists k. split; [| done].
    unfold rec_keys. by apply (list_elem_of_fmap_2 fst _ (k, r)).
  - intros (k & Hin & Hk). unfold rec_keys in Hin.
    apply list_elem_of_fmap in Hin as ([k' r] & -> & Hin).
    exists (k', r). split; [by apply list_elem_of_In |].
    by apply inheritedOnly_spec.
Qed.

End Reach.

Section Effects.
Context {num : Type}.
Variable add : num → num → num.
Variable degToRad : num → num.
Variable zero : num.
Variable one : num.
Implicit Types (object panel : Object3D (num:=num)).
Implicit Types (objects : list (Object3D (num:=num))).
Implicit Types (panelObjects : record ref).
Implicit Types (panelRotations : record (RotationArray (num:=num))).
Implicit Types (r : RotationArray (num:=num)).

Abbreviation rotated := (rotateFromOriginal add degToRad).
Abbreviation effect := (applyPanelRotations add degToRad).

(** A rotation from the original forgets the rotation before it. *)
Lemma rotateFromOriginal_absorb r r' panel :
  rotated r (rotated r' panel) = rotated r panel.
Proof.
  unfold rotateFromOriginal. simpl. by destruct (originalRotation panel).
Qed.

(** *** Where the effect leaves the objects *)

(** Each object ends where the last request that the effect gets to and
    that is addressed to it puts it. *)
Lemma rotatePanels_lookup panelObjects objects i
    (entries : list (string * RotationArray (num:=num))) :
  (rotatePanels add degToRad panelObjects objects entries).1 !! i =
  match lastRequest panelObjects (reached panelObjects entries) i with
  | Some r => rotated r <$> objects !! i
  | None => objects !! i
  end.
Proof.
  revert objects. induction entries as [|entry rest IH]; intros objects;
    [done |].
  simpl. unfold rotatePanel, inheritedOnly, member.
  destruct (rec_get entry.1 panelObjects) as [j|] eqn:Hj.
  - rewrite IH. simpl. rewrite Hj.
    destruct (lastRequest panelObjects (reached panelObjects rest) i)
      as [r|].
    + destruct (decide (j = i)) as [-> | Hne].
      * rewrite list_lookup_alter_eq. destruct (objects !! i); simpl; [| done].
        by rewrite rotateFromOriginal_absorb.
      * by rewrite list_lookup_alter_ne.
    + destruct (decide (j = i)) as [-> | Hne].
      * by rewrite decide_True, list_lookup_alter_eq.
      * rewrite decide_False by congruence. by apply list_lookup_alter_ne.
  - case_bool_decide; [done |]. rewrite IH. simpl. rewrite Hj.
    destruct (lastRequest panelObjects (reached panelObjects rest) i);
      [done |].
    by rewrite decide_False.
Qed.

Lemma rotatePanels_thrown panelObjects objects
    (entries : list (string * RotationArray (num:=num))) :
  (rotatePanels add degToRad panelObjects objects entries).2 =
  if existsb (λ entry, inheritedOnly panelObjects entry.1) entries
  then Some TypeError else None.
Proof.
  revert objects. induction entries as [|entry rest IH]; intros objects;
    [done |].
  simpl. unfold rotatePanel, inheritedOnly at 1.
  destruct (member panelObjects entry.1); simpl; by rewrite ?IH.
Qed.

Lemma lastRequest_None_empty
    (entries : list (string * RotationArray (num:=num))) i :
  lastRequest [] entries i = None.
Proof.
  induction entries as [|entry rest IH]; simpl; [done |]. by rewrite IH.
Qed.

Lemma effect_lookup panelObjects panelRotations objects i :
  (effect panelObjects panelRotations objects).1 !! i =
  match lastRequest panelObjects (reached panelObjects panelRotations) i with
  | Some r => rotated r <$> objects !! i
  | None => objects !! i
  end.
Proof.
  unfold applyPanelRotations.
  destruct panelObjects as [|binding panelObjects'].
  - simpl. by rewrite lastRequest_None_empty.
  - simpl. apply rotatePanels_lookup.
Qed.

Lemma effect_thrown panelObjects panelRotations objects :
  (effect panelObjects panelRotations objects).2 =
  if throws panelObjects panelRotations then Some TypeError else None.
Proof.
  unfold applyPanelRotations, throws.
  destruct (0 <? length (rec_keys panelObjects))%nat; [| done].
  apply rotatePanels_thrown.
Qed.

(** A map whose names are all names of discovered panels is gone through
    to its end. *)
Lemma effect_of_own_names panelObjects panelRotations objects :
  (∀ k, k ∈ rec_keys panelRotations → k ∈ rec_keys panelObjects) →
  (effect panelObjects panelRotations objects).2 = None ∧
  reached panelObjects panelRotations = panelRotations.
Proof.
  intros Hown. split.
  - rewrite effect_thrown.
    destruct (throws panelObjects panelRotations) eqn:Hthrows; [| done].
    apply throws_spec in Hthrows as (_ & k & Hin & _ & Hnin).
    by destruct Hnin; apply Hown.
  - apply reached_all. auto.
Qed.

(** The effect is what its two readings make it. *)
Lemma effect_ext panelObjects panelRotations objects
    (result : list (Object3D (num:=num)) * option Error) :
  (∀ i, result.1 !! i =
        match lastRequest panelObjects
                (reached panelObjects panelRotations) i with
        | Some r => rotated r <$> objects !! i
        | None => objects !! i
        end) →
  result.2 = (if throws panelObjects panelRotations
              then Some TypeError else None) →
  effect panelObjects panelRotations objects = result.
Proof.
  intros Hlookup Hthrown.
  pose proof (effect_thrown panelObjects panelRotations objects) as Hthrown'.
  pose proof (effect_lookup panelObjects panelRotations objects) as Hlookup'.
  destruct (effect panelObjects panelRotations objects) as [objects' e'].
  destruct result as [objects'' e'']. simpl in *. f_equal; [| congruence].
  apply list_eq. intros i. by rewrite Hlookup, Hlookup'.
Qed.

Lemma lastRequest_Some_bound panelObjects i r
    (entries : list (string * RotationArray (num:=num))) :
  lastRequest panelObjects entries i = Some r →
  ∃ k, (k, r) ∈ entries ∧ rec_get k panelObjects = Some i.
Proof.
  induction entries as [|entry rest IH]; simpl; [done |].
  destruct (lastRequest panelObjects rest i) as [r'|].
  - intros [= ->]. destruct IH as (k & Hin & Hk); [done |].
    exists k. split; [by right | done].
  - case_decide as Hk; [| done]. intros [= <-].
    exists entry.1. split; [| done]. destruct entry. left.
Qed.

Lemma lastRequest_is_Some panelObjects i k
    (entries : list (string * RotationArray (num:=num))) :
  k ∈ rec_keys entries → rec_get k panelObjects = Some i →
  is_Some (lastRequest panelObjects entries i).
Proof.
  intros Hin Hk. induction entries as [|[k' r'] rest IH]; simpl.
  - by apply elem_of_nil in Hin.
  - destruct (lastRequest panelObjects rest i) as [r|] eqn:Hlast; [eauto |].
    rewrite rec_keys_cons, elem_of_cons in Hin.
    destruct Hin as [-> | Hin].
    + rewrite decide_True by done. eauto.
    + destruct (IH Hin) as [? ?]. done.
Qed.

Lemma lastRequest_None panelObjects i
    (entries : list (string * RotationArray (num:=num))) :
  lastRequest panelObjects entries i = None ↔
  ∀ k, k ∈ rec_keys entries → rec_get k panelObjects ≠ Some i.
Proof.
  split.
  - intros Hnone k Hin Hk.
    destruct (lastRequest_is_Some panelObjects i k entries Hin Hk)
      as [r Hr]. congruence.
  - intros Hother.
    destruct (lastRequest panelObjects entries i) as [r|] eqn:Hlast;
      [| done].
    apply lastRequest_Some_bound in Hlast as (k & Hin & Hk).
    destruct (Hother k); [| done].
    unfold rec_keys. by apply (list_elem_of_fmap_2 fst _ (k, r)).
Qed.

Lemma rec_keys_NoDup_unique {V} (entries : record V) k v1 v2 :
  NoDup (rec_keys entries) →
  (k, v1) ∈ entries → (k, v2) ∈ entries → v1 = v2.
Proof.
  induction entries as [|[k' v'] rest IH]; [by intros _ ?%elem_of_nil |].
  rewrite rec_keys_cons, NoDup_cons, !elem_of_cons.
  assert (∀ v, (k', v) ∈ rest → k' ∈ rec_keys rest) as Hkey.
  { intros v Hin. unfold rec_keys.
    by apply (list_elem_of_fmap_2 fst _ (k', v)). }
  intros [Hnin Hnd] [H1 | H1] [H2 | H2]; simplify_eq; auto.
  - by destruct Hnin; apply (Hkey v2).
  - by destruct Hnin; apply (Hkey v1).
Qed.

(** When no two names refer to one object and no name has two requests,
    the last request addressed to the object of a name is the request
    of that name. *)
Lemma lastRequest_of_name panelObjects panelRotations panelName i r :
  NoDup (rec_values panelObjects) → NoDup (rec_keys panelRotations) →
  rec_get panelName panelObjects = Some i →
  rec_get panelName panelRotations = Some r →
  lastRequest panelObjects panelRotations i = Some r.
Proof.
  intros Hvalues Hkeys Hi Hr.
  destruct (lastRequest_is_Some panelObjects i panelName panelRotations)
    as [r' Hlast]; [by apply rec_get_is_Some; eauto | done |].
  rewrite Hlast. f_equal.
  apply lastRequest_Some_bound in Hlast as (k & Hin & Hk).
  assert (k = panelName) as ->
    by (by apply (rec_get_inj k panelName i panelObjects)).
  apply rec_get_elem_of in Hr.
  by apply (rec_keys_NoDup_unique panelRotations panelName).
Qed.

(** The request of a name the effect gets to, in a map with one entry
    per name. *)
Lemma lastRequest_reached panelObjects panelRotations panelName i r :
  NoDup (rec_values panelObjects) → NoDup (rec_keys panelRotations) →
  rec_get panelName panelObjects = Some i →
  rec_get panelName (reached panelObjects panelRotations) = Some r →
  lastRequest panelObjects (reached panelObjects panelRotations) i = Some r.
Proof.
  intros Hvalues Hkeys Hi Hr.
  apply (lastRequest_of_name _ _ panelName); [done | | done | done].
  by apply reached_keys_NoDup.
Qed.

(** X5. The rotation effect, object by object.  The effect gets through
    the entries of the map before the first whose name the record of
    panels finds on [Object.prototype] only.  An object to which one of
    these entries is addressed ends at its original rotation (captured
    on the spot if it was not) plus the request of the last such entry,
    and every other object is left as it is.  The effect throws a
    [TypeError] exactly when panels have been found and the map holds
    such a name; a map without one is gone through to its end. *)
Theorem rotation_effect_by_object
    panelObjects panelRotations objects i :
  (effect panelObjects panelRotations objects).1 !! i =
  match lastRequest panelObjects (reached panelObjects panelRotations) i with
  | Some r => rotated r <$> objects !! i
  | None => objects !! i
  end ∧
  (lastRequest panelObjects (reached panelObjects panelRotations) i = None ↔
   ∀ k, k ∈ rec_keys (reached panelObjects panelRotations) →
        rec_get k panelObjects ≠ Some i) ∧
  (effect panelObjects panelRotations objects).2 =
    (if throws panelObjects panelRotations then Some TypeError else None) ∧
  (throws panelObjects panelRotations = true ↔
   rec_keys panelObjects ≠ [] ∧
   ∃ k, k ∈ rec_keys panelRotations ∧ k ∈ objectPrototypeMembers ∧
        k ∉ rec_keys panelObjects) ∧
  ((∀ k, k ∈ rec_keys panelRotations → k ∈ objectPrototypeMembers →
         k ∈ rec_keys panelObjects) →
   reached panelObjects panelRotations = panelRotations).
Proof.
  split_and!.
  - apply effect_lookup.
  - apply lastRequest_None.
  - apply effect_thrown.
  - apply throws_spec.
  - apply reached_all.
Qed.

(** X6. Running the rotation effect again with the same map changes
    nothing: rotations are set from the original, not added up. *)
Theorem rotation_effect_idempotent panelObjects panelRotations objects :
  applyPanelRotations add degToRad panelObjects panelRotations
    (applyPanelRotations add degToRad panelObjects panelRotations objects).1 =
  applyPanelRotations add degToRad panelObjects panelRotations objects.
Proof.
  symmetry. apply effect_ext; [| apply effect_thrown].
  intros i. rewrite !effect_lookup.
  destruct (lastRequest panelObjects
              (reached panelObjects panelRotations) i) as [r|]; [| done].
  destruct (objects !! i); simpl; [| done].
  by rewrite rotateFromOriginal_absorb.
Qed.

(** X7. A second map overwrites a first: when every name the effect got
    to in the first map is a name it gets to in the second, the effect
    of the second after the first is the effect of the second alone, for
    the objects it leaves and for the exception it throws. *)
Theorem rotation_effect_overwrites
    panelObjects panelRotations1 panelRotations2 objects :
  (∀ k, k ∈ rec_keys (reached panelObjects panelRotations1) →
        k ∈ rec_keys (reached panelObjects panelRotations2)) →
  effect panelObjects panelRotations2
    (effect panelObjects panelRotations1 objects).1 =
  effect panelObjects panelRotations2 objects.
Proof.
  intros Hnames. symmetry. apply effect_ext; [| apply effect_thrown].
  intros i. rewrite !effect_lookup.
  destruct (lastRequest panelObjects
              (reached panelObjects panelRotations1) i) as [r1|] eqn:Hfirst;
    [| done].
  apply lastRequest_Some_bound in Hfirst as (k & Hin & Hk).
  destruct (lastRequest_is_Some panelObjects i k
              (reached panelObjects panelRotations2)) as [r2 ->]; [| done |].
  { apply Hnames. unfold rec_keys.
    by apply (list_elem_of_fmap_2 fst _ (k, r1)). }
  destruct (objects !! i); simpl; [| done].
  by rewrite rotateFromOriginal_absorb.
Qed.

(** X8. The rotation effect never adds or drops an object, never writes a
    name or a type, and does nothing at all while no panel has been
    discovered. *)
Theorem rotation_effect_frame panelObjects panelRotations objects :
  length (effect panelObjects panelRotations objects).1 = length objects ∧
  name <$> (effect panelObjects panelRotations objects).1 =
    name <$> objects ∧
  type <$> (effect panelObjects panelRotations objects).1 =
    type <$> objects ∧
  (rec_keys panelObjects = [] →
   effect panelObjects panelRotations objects = (objects, None)).
Proof.
  assert (∀ (f : Object3D (num:=num) → string),
            (∀ r panel, f (rotated r panel) = f panel) →
            f <$> (effect panelObjects panelRotations objects).1 =
            f <$> objects)
    as Hkept.
  { intros f Hf. apply list_eq. intros i.
    rewrite !list_lookup_fmap, effect_lookup.
    destruct (lastRequest panelObjects
                (reached panelObjects panelRotations) i); [| done].
    destruct (objects !! i); simpl; [| done]. by rewrite Hf. }
  split_and!.
  - rewrite <-(length_fmap name), Hkept by done. apply length_fmap.
  - by apply Hkept.
  - by apply Hkept.
  - unfold applyPanelRotations. by intros ->.
Qed.

(** X9. The original pose is captured once, on the first request.  An
    object whose original rotation is captured keeps it through the
    effect.  An object whose original rotation is not captured gets the
    rotation it has at that moment as its original when an entry the
    effect gets to is addressed to it, and is left as it is when none
    is. *)
Theorem original_rotation_captured_once
    panelObjects panelRotations objects i object :
  objects !! i = Some object →
  ∃ object',
    (effect panelObjects panelRotations objects).1 !! i = Some object' ∧
    (∀ original,
       originalRotation object = Some original →
       originalRotation object' = Some original) ∧
    (originalRotation object = None →
     (∃ k, k ∈ rec_keys (reached panelObjects panelRotations) ∧
           rec_get k panelObjects = Some i) →
     originalRotation object' = Some (rotation object)) ∧
    ((∀ k, k ∈ rec_keys (reached panelObjects panelRotations) →
           rec_get k panelObjects ≠ Some i) →
     object' = object).
Proof.
  intros Hobject. rewrite effect_lookup, Hobject.
  destruct (lastRequest panelObjects
              (reached panelObjects panelRotations) i) as [r|] eqn:Hlast;
    simpl.
  - eexists. split; [done |]. unfold rotateFromOriginal. simpl.
    split_and!.
    + by intros original ->.
    + by intros -> _.
    + intros Hnone%lastRequest_None. congruence.
  - exists object. split; [done |]. split_and!; [done | | done].
    intros _ (k & Hin & Hk).
    by destruct (proj1 (lastRequest_None _ _ _) Hlast k Hin).
Qed.

(** X10. Zero requests put a panel back: whatever map the effect has run
    with, running it with a map in which it gets to a request, for a
    panel with a captured original, of a quantity that converts to a
    neutral addend on each axis leaves the panel at its original
    rotation. *)
Theorem zero_request_restores_original
    panelObjects panelRotations resetRotations objects
    panelName i panel original nought :
  (∀ v, add v (degToRad nought) = v) →
  NoDup (rec_values panelObjects) → NoDup (rec_keys resetRotations) →
  rec_get panelName panelObjects = Some i →
  objects !! i = Some panel →
  originalRotation panel = Some original →
  rec_get panelName (reached panelObjects resetRotations) =
    Some (nought, nought, nought) →
  rotation <$>
    (effect panelObjects resetRotations
       (effect panelObjects panelRotations objects).1).1 !! i =
  Some original.
Proof.
  intros Hneutral Hvalues Hkeys Hi Hpanel Horiginal Hreset.
  rewrite effect_lookup.
  rewrite (lastRequest_reached _ _ panelName i (nought, nought, nought))
    by done.
  rewrite effect_lookup, Hpanel.
  assert (rotation (rotated (nought, nought, nought) panel) = original)
    as Hback.
  { unfold rotateFromOriginal. rewrite Horiginal. simpl.
    rewrite !Hneutral. by destruct original. }
  destruct (lastRequest panelObjects
              (reached panelObjects panelRotations) i) as [r|].
  - cbn [fmap option_fmap option_map]. rewrite rotateFromOriginal_absorb.
    by rewrite Hback.
  - cbn [fmap option_fmap option_map]. by rewrite Hback.
Qed.

(** X28. For a discovered panel whose original pose has been captured and
    a request for it that the effect gets to, the rotation effect leaves
    each axis of the panel at the original value on that axis plus the
    requested degrees converted by [degToRad], the captured pose being
    kept, whether or not the effect throws at a later entry.  In
    particular a request of [d] on X and of a quantity [zero] on Y and
    Z, where [zero] converts to a neutral addend as 0 does, leaves X at
    the original X plus [d] converted and Y and Z at their original
    values. *)
Theorem panel_rotation_is_original_plus_request
    panelObjects panelRotations objects panelName i panel original rx ry rz :
  NoDup (rec_values panelObjects) → NoDup (rec_keys panelRotations) →
  rec_get panelName panelObjects = Some i →
  objects !! i = Some panel →
  originalRotation panel = Some original →
  rec_get panelName (reached panelObjects panelRotations) =
    Some (rx, ry, rz) →
  ∃ panel',
    (applyPanelRotations add degToRad panelObjects panelRotations
       objects).1 !! i = Some panel' ∧
    x (rotation panel') = add (x original) (degToRad rx) ∧
    y (rotation panel') = add (y original) (degToRad ry) ∧
    z (rotation panel') = add (z original) (degToRad rz) ∧
    originalRotation panel' = Some original ∧
    (∀ zero, (∀ v, add v (degToRad zero) = v) → ry = zero → rz = zero →
       rotation panel' =
       {| x := add (x original) (degToRad rx);
          y := y original; z := z original |}).
Proof.
  intros Hnd Hkeys Hi Hpanel Horiginal Hr.
  exists (rotated (rx, ry, rz) panel). split.
  - rewrite effect_lookup.
    rewrite (lastRequest_reached _ _ panelName i (rx, ry, rz)) by done.
    by rewrite Hpanel.
  - unfold rotateFromOriginal. rewrite Horiginal. simpl.
    split_and!; try done.
    intros zero' Hzero -> ->. by rewrite !Hzero.
Qed.

(** *** The model rotation *)

Abbreviation modelEffect := (applyModelRotation degToRad zero one).

Lemma setRotation_absorb (e e' : Euler (num:=num)) object :
  setRotation e (setRotation e' object) = setRotation e object.
Proof. reflexivity. Qed.

(** X11. The model rotation is set, not added: a second run overwrites the
    first, whatever the scale, the position and the rotation were; and a
    run only writes the rotation of the root, the other objects and the
    name, the type and the captured rotation of the root being left as
    they are. *)
Theorem model_rotation_is_absolute r1 r2 (asset : Asset (num:=num)) :
  modelEffect r2 (modelEffect r1 asset) = modelEffect r2 asset ∧
  length (nodes (modelEffect r1 asset)) = length (nodes asset) ∧
  (∀ i, 0 < i → nodes (modelEffect r1 asset) !! i = nodes asset !! i) ∧
  (∀ root, nodes asset !! 0 = Some root →
     nodes (modelEffect r1 asset) !! 0 =
     Some {| name := name root; type := type root;
             rotation := {| x := degToRad r1.1.1; y := degToRad r1.1.2;
                            z := degToRad r1.2 |};
             originalRotation := originalRotation root |}).
Proof.
  split_and!.
  - unfold applyModelRotation. simpl. f_equal.
    apply list_eq. intros [|i].
    + rewrite !list_lookup_alter_eq. by destruct (nodes asset !! 0).
    + by rewrite !list_lookup_alter_ne by done.
  - apply length_alter.
  - intros i Hi. simpl. apply list_lookup_alter_ne. lia.
  - intros root Hroot. simpl. by rewrite list_lookup_alter_eq, Hroot.
Qed.

(** X12. When the scene root is itself a discovered panel whose original
    rotation is not captured yet, the panel effect that follows the model
    effect and gets to the request of the root captures the rotation of
    the model as the original of the panel: the root ends at the model
    rotation plus the request. *)
Theorem root_panel_captures_model_rotation
    panelObjects panelRotations (asset : Asset (num:=num))
    panelName root m r :
  NoDup (rec_values panelObjects) → NoDup (rec_keys panelRotations) →
  rec_get panelName panelObjects = Some 0 →
  rec_get panelName (reached panelObjects panelRotations) = Some r →
  nodes asset !! 0 = Some root →
  originalRotation root = None →
  ∃ root',
    (effect panelObjects panelRotations
       (nodes (modelEffect m asset))).1 !! 0 = Some root' ∧
    originalRotation root' =
      Some {| x := degToRad m.1.1; y := degToRad m.1.2;
              z := degToRad m.2 |} ∧
    rotation root' =
      {| x := add (degToRad m.1.1) (degToRad r.1.1);
         y := add (degToRad m.1.2) (degToRad r.1.2);
         z := add (degToRad m.2) (degToRad r.2) |}.
Proof.
  intros Hvalues Hkeys Hname Hr Hroot Hfresh.
  rewrite effect_lookup.
  rewrite (lastRequest_reached _ _ panelName 0 r) by done.
  simpl. rewrite list_lookup_alter_eq, Hroot. simpl.
  eexists. split; [done |]. unfold rotateFromOriginal. simpl.
  by rewrite Hfresh.
Qed.
End Effects.

End ModelFacts.

(** * Facts about the scene controller *)

Module SceneFacts.
Import JS JSFacts Scene.

Section Controller.
Context {num : Type}.
Variable lit : Z → num.
Variable falsy : num → bool.
Variable JSON_parse : string → outcome (JSValue num).

Abbreviation Value := (JSValue num).
Abbreviation zeros := (rotationArray lit 0 0 0).
Implicit Types (s : State (num:=num)) (panels : list string).

(** *** The all-zero rotation record *)

Lemma zeroRotations_from_get panels (rotations : record Value) panel :
  rec_get panel
    (foldl (λ rotations panel, rec_set panel zeros rotations)
       rotations panels) =
  if decide (panel ∈ panels) then Some zeros else rec_get panel rotations.
Proof.
  revert rotations. induction panels as [|p panels IH]; intros rotations.
  { done. }
  simpl. rewrite IH. destruct (decide (panel ∈ panels)) as [Hin | Hnin].
  - by rewrite decide_True by (by right).
  - destruct (decide (p = panel)) as [-> | Hne].
    + rewrite decide_True by left. apply rec_get_set_eq.
    + rewrite decide_False.
      * by apply rec_get_set_ne.
      * rewrite elem_of_cons. intros [-> | ?]; done.
Qed.

Lemma zeroRotations_get panels panel :
  rec_get panel (zeroRotations lit panels) =
  if decide (panel ∈ panels) then Some zeros else None.
Proof. unfold zeroRotations. by rewrite zeroRotations_from_get. Qed.

Lemma zeroRotations_from_keys panels (rotations : record Value) :
  rec_keys
    (foldl (λ rotations panel, rec_set panel zeros rotations)
       rotations panels) =
  rec_keys rotations ++
  filter (λ n, n ∉ rec_keys rotations) (firstOccurrences panels).
Proof.
  revert rotations. induction panels as [|p panels IH]; intros rotations.
  { simpl. by rewrite app_nil_r. }
  simpl. rewrite IH, rec_keys_set. case_decide as Hin.
  - rewrite filter_cons_False by auto.
    by rewrite list_filter_filter_l by (by intros m ? ->).
  - rewrite filter_cons_True by done.
    rewrite <-(assoc_L (++)). simpl. do 2 f_equal.
    rewrite list_filter_filter. apply list_filter_iff. intros m.
    rewrite elem_of_app, list_elem_of_singleton. tauto.
Qed.

(** The properties of the all-zero record are the names it is built from,
    each once, in the order of their first occurrence. *)
Lemma zeroRotations_keys panels :
  rec_keys (zeroRotations lit panels) = firstOccurrences panels.
Proof.
  unfold zeroRotations. rewrite zeroRotations_from_keys, rec_keys_nil.
  simpl. apply filter_all. intros m _. apply not_elem_of_nil.
Qed.

(** *** Discovery callback *)

Lemma handlePanelsFound_rotationOf panels s panel :
  rotationOf panel (handlePanelsFound lit panels s) =
  if decide (panel ∈ panels) then Some zeros else None.
Proof. unfold rotationOf. simpl. apply zeroRotations_get. Qed.

(** C1, as the controller has it. The discovery callback replaces the
    panel name list by the delivered names and replaces the rotation map
    by one that holds (0,0,0) for exactly the delivered names, whatever
    the map held before; the model rotation, the presets and the selected
    panel are left as they were. *)
Theorem handlePanelsFound_zeroes_every_panel panels s :
  panelList (handlePanelsFound lit panels s) = panels ∧
  (∀ panel, panel ∈ panels →
     rotationOf panel (handlePanelsFound lit panels s) = Some zeros) ∧
  (∀ panel, panel ∉ panels →
     rotationOf panel (handlePanelsFound lit panels s) = None) ∧
  modelRotation (handlePanelsFound lit panels s) = modelRotation s ∧
  activePreset (handlePanelsFound lit panels s) = activePreset s ∧
  customPresets (handlePanelsFound lit panels s) = customPresets s ∧
  selectedPanel (handlePanelsFound lit panels s) = selectedPanel s.
Proof.
  split_and!; try done.
  - intros panel Hin. by rewrite handlePanelsFound_rotationOf, decide_True.
  - intros panel Hnin. by rewrite handlePanelsFound_rotationOf, decide_False.
Qed.

(** *** Presets *)

(** C6. Applying a preset, fixed or custom, twice in a row is the same as
    applying it once: both runs end in the same state (model rotation,
    active preset and all the rest), or both throw.  A run that ends leaves
    a state on which a second run changes nothing; a fixed preset always
    applies, and so does a custom one unless the custom presets are [null]
    or [undefined]. *)
Theorem applyPreset_idempotent (presetName : ViewName) s :
  (s' ← applyPreset lit presetName s; applyPreset lit presetName s') =
    applyPreset lit presetName s ∧
  (∀ s1, applyPreset lit presetName s = Ok s1 →
         applyPreset lit presetName s1 = Ok s1 ∧
         activePreset s1 = view presetName) ∧
  (match presetName with
   | fixed _ => True
   | custom _ => customPresets s ≠ JNull ∧ customPresets s ≠ JUndefined
   end → ∃ s1, applyPreset lit presetName s = Ok s1).
Proof.
  unfold applyPreset. destruct presetName as [f | c].
  - split_and!; [done | by intros s1 [= <-] | by eexists].
  - destruct (get_prop (customPresets s) (key c)) as [rotation | e] eqn:Hget.
    + simpl. rewrite Hget. split_and!; [done | | by eexists].
      intros s1 [= <-]. simpl. by rewrite Hget.
    + split_and!; [done | done |]. intros [Hnull Hundefined].
      by destruct (customPresets s).
Qed.

(** C5. From a state whose model rotation is an array, as a rotation
    vector is, saving the current rotation into a custom slot and applying
    that slot at once succeeds and leaves the model rotation equal to the
    one that was current when saving, with the slot active. *)
Theorem save_then_apply_restores (slot : CustomName) s elements :
  modelRotation s = JArr elements →
  ∃ s1 s2,
    saveAsCustom slot s = Ok s1 ∧
    own_prop (customPresets s1) (key slot) = Some (modelRotation s) ∧
    applyPreset lit (custom slot) s1 = Ok s2 ∧
    modelRotation s2 = modelRotation s ∧
    activePreset s2 = view (custom slot).
Proof.
  intros Hrot. unfold saveAsCustom. rewrite Hrot. simpl.
  eexists _, _. split; [done |]. simpl. rewrite rec_get_set_eq.
  split; [done |]. unfold applyPreset. simpl. rewrite rec_get_set_eq.
  simpl. done.
Qed.

(** *** Panel reset *)

(** C7. Resetting all panels sets the rotation of every known panel (every
    name of the panel list) to (0,0,0) and leaves the model rotation, the
    active preset and the custom presets as they were. *)
Theorem resetAllPanelRotations_zeroes_known_panels s :
  (∀ panel, panel ∈ panelList s →
     rotationOf panel (resetAllPanelRotations lit s) = Some zeros) ∧
  modelRotation (resetAllPanelRotations lit s) = modelRotation s ∧
  customPresets (resetAllPanelRotations lit s) = customPresets s ∧
  activePreset (resetAllPanelRotations lit s) = activePreset s ∧
  panelList (resetAllPanelRotations lit s) = panelList s.
Proof.
  split_and!; try done.
  intros panel Hin. unfold rotationOf. simpl.
  by rewrite zeroRotations_get, decide_True.
Qed.

(** C10. After a reset the rotation map has an entry for a name exactly
    when the name is in the panel list: its properties are the names of
    the list, each once, and an entry the map held for any other name is
    gone. *)
Theorem resetAllPanelRotations_domain s :
  (∀ panel, is_Some (rotationOf panel (resetAllPanelRotations lit s)) ↔
            panel ∈ panelList s) ∧
  (∀ panel, panel ∉ panelList s →
            rotationOf panel (resetAllPanelRotations lit s) = None) ∧
  (∃ rotations,
     panelRotations (resetAllPanelRotations lit s) = JObj rotations ∧
     NoDup (rec_keys rotations) ∧
     (∀ panel, panel ∈ rec_keys rotations ↔ panel ∈ panelList s)).
Proof.
  split_and!.
  - intros panel. unfold rotationOf. simpl. rewrite zeroRotations_get.
    case_decide as Hin.
    + split; [done | by eexists].
    + split; [by intros [? ?] | done].
  - intros panel Hnin. unfold rotationOf. simpl.
    by rewrite zeroRotations_get, decide_False.
  - eexists. split; [done |]. rewrite zeroRotations_keys.
    split; [apply NoDup_firstOccurrences |].
    intros panel. apply elem_of_firstOccurrences.
Qed.

(** *** Loading from local storage *)

Lemma truthy_JStr saved : saved ≠ "" → truthy falsy (JStr saved) = true.
Proof. intros Hne. simpl. by apply negb_true_iff, String.eqb_neq. Qed.

(** The guarded read of the custom presets: never an exception, and the
    parsed value is taken exactly when both fields are truthy. *)
Lemma readCustomPresets_parsed (parsed : Value) s :
  try_catch
    (c1 ← get_prop parsed "custom1";
     if truthy falsy c1 then
       c2 ← get_prop parsed "custom2";
       if truthy falsy c2 then Ok (setCustomPresets parsed s) else Ok s
     else Ok s)
    (λ e, Ok s) =
  Ok (if hasBothCustomPresets falsy parsed
      then setCustomPresets parsed s else s).
Proof.
  unfold hasBothCustomPresets.
  destruct parsed as [| | b | n | t | elements | properties]; try done.
  simpl. destruct (truthy falsy (default JUndefined (rec_get "custom1" _)));
    [| done].
  simpl. by destruct (truthy falsy (default JUndefined (rec_get "custom2" _))).
Qed.

(** The first [try] block: no exception, the rotation map untouched. *)
Lemma loadCustomPresets_Ok (localStorage : Storage) s :
  ∃ s1,
    loadCustomPresets falsy JSON_parse localStorage s = Ok s1 ∧
    panelRotations s1 = panelRotations s ∧
    (∀ saved e,
       localStorage !! "issCustomViewPresets" = Some saved →
       JSON_parse saved = Throw e →
       customPresets s1 = customPresets s) ∧
    (∀ saved parsed,
       localStorage !! "issCustomViewPresets" = Some saved →
       saved ≠ "" → JSON_parse saved = Ok parsed →
       customPresets s1 =
       if hasBothCustomPresets falsy parsed then parsed
       else customPresets s).
Proof.
  unfold loadCustomPresets.
  destruct (localStorage !! "issCustomViewPresets") as [saved |].
  2:{ exists s. by split_and!. }
  destruct (decide (saved = "")) as [-> | Hne].
  { exists s. split_and!; try done. by intros ? ? [= <-]. }
  rewrite truthy_JStr by done.
  destruct (JSON_parse saved) as [parsed | e] eqn:Hparse.
  - simpl. rewrite readCustomPresets_parsed. eexists. split; [done |].
    split_and!.
    + by destruct (hasBothCustomPresets falsy parsed).
    + intros ? ? [= <-]. congruence.
    + intros ? parsed' [= <-] _. rewrite Hparse. intros [= <-].
      by destruct (hasBothCustomPresets falsy parsed).
  - exists s. split_and!; try done. intros ? ? [= <-]. congruence.
Qed.

(** The second [try] block: no exception, the custom presets untouched. *)
Lemma loadPanelRotations_Ok (localStorage : Storage) s :
  ∃ s2,
    loadPanelRotations falsy JSON_parse localStorage s = Ok s2 ∧
    customPresets s2 = customPresets s ∧
    (∀ saved e,
       localStorage !! "issPanelRotations" = Some saved →
       JSON_parse saved = Throw e →
       panelRotations s2 = panelRotations s) ∧
    (∀ saved parsed,
       localStorage !! "issPanelRotations" = Some saved →
       saved ≠ "" → JSON_parse saved = Ok parsed →
       panelRotations s2 = parsed).
Proof.
  unfold loadPanelRotations.
  destruct (localStorage !! "issPanelRotations") as [saved |].
  2:{ exists s. by split_and!. }
  destruct (decide (saved = "")) as [-> | Hne].
  { exists s. split_and!; try done. by intros ? ? [= <-]. }
  rewrite truthy_JStr by done.
  destruct (JSON_parse saved) as [parsed | e] eqn:Hparse.
  - simpl. eexists. split; [done |]. split_and!; [done | |].
    + intros ? ? [= <-]. congruence.
    + intros ? parsed' [= <-] _. rewrite Hparse. by intros [= <-].
  - exists s. split_and!; try done. intros ? ? [= <-]. congruence.
Qed.

(** C8. Loading never lets an exception out.  When the text stored for the
    custom presets fails to parse, the custom presets in memory are left
    as they were; when the text stored for the panel rotations fails to
    parse, the rotation map in memory is left as it was: from the initial
    state it stays the empty map, and the map built once panels are
    discovered holds (0,0,0) for every discovered panel. *)
Theorem load_keeps_defaults_on_malformed (localStorage : Storage) s :
  ∃ s',
    load falsy JSON_parse localStorage s = Ok s' ∧
    (∀ saved e,
       localStorage !! "issCustomViewPresets" = Some saved →
       JSON_parse saved = Throw e →
       customPresets s' = customPresets s) ∧
    (∀ saved e,
       localStorage !! "issPanelRotations" = Some saved →
       JSON_parse saved = Throw e →
       panelRotations s' = panelRotations s ∧
       (s = initialState lit → panelRotations s' = JObj []) ∧
       (∀ panels panel, panel ∈ panels →
          rotationOf panel (handlePanelsFound lit panels s') = Some zeros)).
Proof.
  unfold load.
  destruct (loadCustomPresets_Ok localStorage s)
    as (s1 & -> & Hrot1 & Hthrow1 & _).
  destruct (loadPanelRotations_Ok localStorage s1)
    as (s2 & Hload2 & Hcustom2 & Hthrow2 & _).
  exists s2. split; [done |]. split.
  - intros saved e Hsaved Hparse. rewrite Hcustom2. eauto.
  - intros saved e Hsaved Hparse.
    assert (panelRotations s2 = panelRotations s) as Hkept
      by (rewrite <-Hrot1; eauto).
    split_and!; [done | by intros -> |].
    intros panels panel Hin.
    by rewrite handlePanelsFound_rotationOf, decide_True.
Qed.

(** C9. Loading takes a parsed custom-preset value exactly when both its
    [custom1] and its [custom2] field are present and truthy, and otherwise
    keeps the custom presets in memory, silently; it takes a parsed
    panel-rotation value whatever it is.  ([JSON.parse] rejects the empty
    text.) *)
Theorem load_applies_parsed_values (localStorage : Storage) s :
  JSON_parse "" = Throw SyntaxError →
  ∃ s',
    load falsy JSON_parse localStorage s = Ok s' ∧
    (∀ saved parsed,
       localStorage !! "issCustomViewPresets" = Some saved →
       JSON_parse saved = Ok parsed →
       customPresets s' =
       if hasBothCustomPresets falsy parsed then parsed
       else customPresets s) ∧
    (∀ saved parsed,
       localStorage !! "issPanelRotations" = Some saved →
       JSON_parse saved = Ok parsed →
       panelRotations s' = parsed).
Proof.
  intros Hempty. unfold load.
  destruct (loadCustomPresets_Ok localStorage s)
    as (s1 & -> & _ & _ & Hparsed1).
  destruct (loadPanelRotations_Ok localStorage s1)
    as (s2 & Hload2 & Hcustom2 & _ & Hparsed2).
  exists s2. split; [done |]. split.
  - intros saved parsed Hsaved Hparse. rewrite Hcustom2.
    apply (Hparsed1 saved); [done | | done]. intros ->. congruence.
  - intros saved parsed Hsaved Hparse.
    apply (Hparsed2 saved); [done | | done]. intros ->. congruence.
Qed.
End Controller.

(** ** The sliders, the storage and the declared types *)

Section Handlers.
Context {num : Type}.
Variable lit : Z → num.
Variable falsy : num → bool.
Variable JSON_parse : string → outcome (JSValue num).
Variable JSON_stringify : JSValue num → string.

Abbreviation Value := (JSValue num).
Abbreviation zeros := (rotationArray lit 0 0 0).
Abbreviation panelSlider := (handlePanelRotationChange lit falsy).
Abbreviation handleEvent := (handle lit falsy JSON_stringify).
Abbreviation runEvents := (run lit falsy JSON_stringify).
Abbreviation mounted := (mount lit falsy JSON_parse JSON_stringify).
Implicit Types (s : State (num:=num)) (localStorage : Storage).
Implicit Types (axis : Axis) (value : num).

(** The component of a rotation on an axis. *)
Lemma set_index_rotation axis (v a b c : Value) :
  set_index (index axis) v [a; b; c] =
  match axis with
  | axisX => [v; b; c]
  | axisY => [a; v; c]
  | axisZ => [a; b; v]
  end.
Proof. by destruct axis. Qed.

Lemma isRotation_zeros : isRotation zeros.
Proof. by eexists _, _, _. Qed.

Lemma isRotation_set_index axis value (a b c : num) :
  isRotation
    (JArr (set_index (index axis) (JNum value) [JNum a; JNum b; JNum c])).
Proof. rewrite set_index_rotation. destruct axis; by eexists _, _, _. Qed.

Lemma isRotation_truthy (r : Value) : isRotation r → truthy falsy r = true.
Proof. by intros (a & b & c & ->). Qed.

(** *** The slider of the model *)

(** X13. A slider of the model, moved on a model rotation that is an array
    of three, replaces the element of its axis, leaves the two others, and
    clears the active preset; the custom presets, the panel list and the
    panel rotations are left as they are. *)
Theorem handleRotationChange_sets_one_axis axis value s (a b c : Value) :
  modelRotation s = JArr [a; b; c] →
  ∃ s',
    handleRotationChange axis value s = Ok s' ∧
    modelRotation s' =
      JArr match axis with
           | axisX => [JNum value; b; c]
           | axisY => [a; JNum value; c]
           | axisZ => [a; b; JNum value]
           end ∧
    activePreset s' = none ∧
    customPresets s' = customPresets s ∧
    panelList s' = panelList s ∧
    panelRotations s' = panelRotations s.
Proof.
  intros Hrot. unfold handleRotationChange. rewrite Hrot. simpl.
  eexists. split; [done |]. simpl. by rewrite set_index_rotation.
Qed.

(** X14. A preset does not come back with its rotation.  When a slider
    of the model is moved away from the value it shows and then back to
    it (two moves, each to another value than the one shown, as the
    browser reports them), the model rotation is what it was and no
    preset is active, whatever preset was active before. *)
Theorem slider_back_leaves_preset_cleared axis value s (a b c : num) :
  modelRotation s = JArr [JNum a; JNum b; JNum c] →
  value ≠ match axis with axisX => a | axisY => b | axisZ => c end →
  (s' ← handleRotationChange axis value s;
   handleRotationChange axis
     match axis with axisX => a | axisY => b | axisZ => c end s') =
  Ok (setActivePreset none s).
Proof.
  intros Hrot _. unfold handleRotationChange. rewrite Hrot. simpl.
  rewrite set_index_rotation. unfold setActivePreset, setModelRotation.
  by destruct axis; simpl; rewrite Hrot.
Qed.

(** X15. On a model rotation that is an array of three, two moves of
    sliders of different axes give the same state in either order, and of
    two moves of the same slider the last one counts. *)
Theorem sliders_commute axis1 axis2 value1 value2 s (a b c : Value) :
  modelRotation s = JArr [a; b; c] →
  (axis1 ≠ axis2 →
   (s' ← handleRotationChange axis1 value1 s;
    handleRotationChange axis2 value2 s') =
   (s' ← handleRotationChange axis2 value2 s;
    handleRotationChange axis1 value1 s')) ∧
  (s' ← handleRotationChange axis1 value1 s;
   handleRotationChange axis1 value2 s') =
  handleRotationChange axis1 value2 s.
Proof.
  intros Hrot. unfold handleRotationChange. rewrite Hrot. simpl.
  rewrite !set_index_rotation. split.
  - intros Hne. destruct axis1, axis2; done.
  - destruct axis1; done.
Qed.

(** *** The slider of a panel *)

Lemma panelSlider_on_rotations panel axis value s rotations :
  panelRotations s = JObj rotations →
  (∀ k r, rec_get k rotations = Some r → isRotation r) →
  ∃ (a b c : num) rotations',
    default zeros (rotationOf panel s) = JArr [JNum a; JNum b; JNum c] ∧
    panelSlider panel axis value s =
      Ok (setPanelRotations (JObj rotations') s) ∧
    rec_get panel rotations' =
      Some (JArr (set_index (index axis) (JNum value)
                    [JNum a; JNum b; JNum c])) ∧
    (∀ k, k ≠ panel → rec_get k rotations' = rec_get k rotations).
Proof.
  intros Hmap Htyped. unfold handlePanelRotationChange, rotationOf.
  rewrite Hmap. simpl. destruct (rec_get panel rotations) as [r|] eqn:Hr.
  - destruct (Htyped panel r Hr) as (a & b & c & ->). simpl.
    rewrite Hr. simpl. exists a, b, c. eexists. split_and!; [done.. | |].
    + apply rec_get_set_eq.
    + intros k Hne. by apply rec_get_set_ne.
  - simpl. rewrite rec_get_set_eq. simpl.
    eexists _, _, _, _. split_and!; [done.. | |].
    + apply rec_get_set_eq.
    + intros k Hne. by rewrite !rec_get_set_ne.
Qed.

(** X16. A slider of a panel, moved on a map of rotations, replaces the
    element of its axis in the rotation of the panel, taken to be (0,0,0)
    when the map has none for it, and leaves the rotations of the other
    panels, the model rotation, the presets and the panel list as they
    are. *)
Theorem handlePanelRotationChange_sets_one_axis
    panel axis value s rotations :
  panelRotations s = JObj rotations →
  (∀ k r, rec_get k rotations = Some r → isRotation r) →
  ∃ (a b c : num) s',
    default zeros (rotationOf panel s) = JArr [JNum a; JNum b; JNum c] ∧
    panelSlider panel axis value s = Ok s' ∧
    rotationOf panel s' =
      Some (JArr match axis with
                 | axisX => [JNum value; JNum b; JNum c]
                 | axisY => [JNum a; JNum value; JNum c]
                 | axisZ => [JNum a; JNum b; JNum value]
                 end) ∧
    (∀ other, other ≠ panel → rotationOf other s' = rotationOf other s) ∧
    modelRotation s' = modelRotation s ∧
    activePreset s' = activePreset s ∧
    customPresets s' = customPresets s ∧
    panelList s' = panelList s.
Proof.
  intros Hmap Htyped.
  destruct (panelSlider_on_rotations panel axis value s rotations Hmap Htyped)
    as (a & b & c & rotations' & Hold & Hrun & Hnew & Hother).
  exists a, b, c. eexists. split_and!; [done | exact Hrun | | | done..].
  - unfold rotationOf. simpl. by rewrite Hnew, set_index_rotation.
  - intros other Hne. unfold rotationOf. rewrite Hmap. simpl. by apply Hother.
Qed.

(** X17. What a slider of a panel makes of an entry that is no rotation,
    as a map read from the storage can hold: an entry that is a number
    other than [0] and [NaN] cannot be spread and the handler throws a
    [TypeError]; an entry that is [null], [false], [0] or the empty string
    is taken for a missing one and replaced. *)
Theorem handlePanelRotationChange_on_foreign_entry
    panel axis value s rotations (entry : Value) :
  panelRotations s = JObj rotations →
  rec_get panel rotations = Some entry →
  (∀ n, entry = JNum n → falsy n = false →
        panelSlider panel axis value s = Throw TypeError) ∧
  (truthy falsy entry = false →
   ∃ s', panelSlider panel axis value s = Ok s' ∧
         rotationOf panel s' =
           Some (JArr (set_index (index axis) (JNum value)
                         [JNum (lit 0); JNum (lit 0); JNum (lit 0)]))).
Proof.
  intros Hmap Hentry. unfold handlePanelRotationChange, rotationOf.
  rewrite Hmap. simpl. rewrite Hentry. simpl. split.
  - intros n -> Hn. simpl. rewrite Hn. simpl. by rewrite Hentry.
  - intros ->. rewrite rec_get_set_eq. simpl.
    eexists. split; [done |]. simpl. apply rec_get_set_eq.
Qed.

(** *** The declared types are kept *)

Lemma wellTyped_initialState : wellTyped (initialState lit).
Proof.
  split_and!.
  - apply isRotation_zeros.
  - eexists. split; [done |].
    split; eexists; (split; [done | apply isRotation_zeros]).
  - eexists. split; [done |]. done.
Qed.

Lemma zeroRotations_typed panels panel (r : Value) :
  rec_get panel (zeroRotations lit panels) = Some r → isRotation r.
Proof.
  rewrite (zeroRotations_get lit). case_decide; [| done].
  intros [= <-]. apply isRotation_zeros.
Qed.

Lemma rec_set_custom_typed (c : CustomName) k (copy : Value)
    (properties : record Value) :
  isRotation copy →
  (∃ r, rec_get k properties = Some r ∧ isRotation r) →
  ∃ r, rec_get k (rec_set (key c) copy properties) = Some r ∧ isRotation r.
Proof.
  intros Hcopy (r & Hr & Hrot). destruct (decide (key c = k)) as [<- | Hne].
  - exists copy. by rewrite rec_get_set_eq.
  - exists r. by rewrite rec_get_set_ne.
Qed.

(** Every control, and the callback of the adapter, keeps the declared
    types and does not throw on a state that has them. *)
Lemma handle_wellTyped event s localStorage :
  wellTyped s →
  ∃ s' localStorage',
    handleEvent event (s, localStorage) = Ok (s', localStorage') ∧
    wellTyped s'.
Proof.
  intros ((a & b & c & Hrot) & (properties & Hcustom & Hc1 & Hc2) &
          (rotations & Hmap & Htyped)).
  assert (wellTyped s) as Hs.
  { split_and!; [by eexists _, _, _ | by eexists | by eexists]. }
  destruct event as [panels | visible | presetName | presetName | axis value
                     | | | panel | axis value]; simpl.
  - eexists _, _. split; [done |]. split_and!; simpl.
    + by eexists _, _, _.
    + by eexists.
    + eexists. split; [done |]. apply zeroRotations_typed.
  - eexists _, _. split; [done |]. exact Hs.
  - destruct presetName as [f | slot].
    + eexists _, _. split; [done |]. split_and!; simpl.
      * destruct f; by eexists _, _, _.
      * by eexists.
      * by eexists.
    + unfold applyPreset. rewrite Hcustom. simpl.
      assert (∃ r, rec_get (key slot) properties = Some r ∧ isRotation r)
        as (r & Hr & Hr') by (by destruct slot).
      rewrite Hr. simpl. eexists _, _. split; [done |].
      split_and!; simpl; [done | | by eexists].
      rewrite Hcustom. by eexists.
  - unfold saveAsCustom. rewrite Hrot, Hcustom. simpl.
    eexists _, _. split; [done |]. split_and!; simpl.
    + rewrite Hrot. by eexists _, _, _.
    + eexists. split; [done |].
      split; (apply rec_set_custom_typed; [by eexists _, _, _ | done]).
    + by eexists.
  - unfold handleRotationChange. rewrite Hrot. simpl.
    eexists _, _. split; [done |]. split_and!; simpl.
    + apply isRotation_set_index.
    + by eexists.
    + by eexists.
  - eexists _, _. split; [done |]. split_and!; simpl.
    + by eexists _, _, _.
    + by eexists.
    + eexists. split; [done |]. apply zeroRotations_typed.
  - eexists _, _. split; [done |]. exact Hs.
  - eexists _, _. split; [done |]. exact Hs.
  - destruct (panelSlider_on_rotations (selectedPanel s) axis value s
                rotations Hmap Htyped)
      as (a' & b' & c' & rotations' & _ & -> & Hnew & Hother).
    simpl. eexists _, _. split; [done |]. split_and!; simpl.
    + by eexists _, _, _.
    + by eexists.
    + eexists. split; [done |]. intros k r.
      destruct (decide (k = selectedPanel s)) as [-> | Hne].
      * rewrite Hnew. intros [= <-]. apply isRotation_set_index.
      * rewrite Hother by done. apply Htyped.
Qed.

(** X18. The declared types are an invariant of the mounted component:
    from a state whose model rotation is a rotation, whose custom presets
    hold a rotation each and whose panel rotations are a map of rotations,
    no run of events throws, and every run ends in such a state. *)
Theorem events_keep_declared_types events s localStorage :
  wellTyped s →
  ∃ s' localStorage',
    runEvents events (s, localStorage) = Ok (s', localStorage') ∧
    wellTyped s'.
Proof.
  revert s localStorage. induction events as [|event rest IH];
    intros s localStorage Hs.
  - by eexists _, _.
  - destruct (handle_wellTyped event s localStorage Hs)
      as (s1 & localStorage1 & Hstep & Hs1).
    cbn [run]. rewrite Hstep. simpl. by apply IH.
Qed.

(** *** What is written to the storage, and when *)

Lemma applyPreset_customPresets presetName s s' :
  applyPreset lit presetName s = Ok s' → customPresets s' = customPresets s.
Proof.
  unfold applyPreset. destruct presetName as [f | slot]; simpl.
  - by intros [= <-].
  - destruct (get_prop (customPresets s) (key slot)); simpl; [| done].
    by intros [= <-].
Qed.

Lemma handleRotationChange_customPresets axis value s s' :
  handleRotationChange axis value s = Ok s' →
  customPresets s' = customPresets s.
Proof.
  unfold handleRotationChange.
  destruct (spread_elements (modelRotation s)); simpl; [| done].
  by intros [= <-].
Qed.

Lemma handlePanelRotationChange_customPresets panel axis value s s' :
  panelSlider panel axis value s = Ok s' →
  customPresets s' = customPresets s.
Proof.
  unfold handlePanelRotationChange.
  destruct (spread_elements _); simpl; [| done]. by intros [= <-].
Qed.

(** Only the two save buttons change the custom presets. *)
Lemma handle_customPresets event s localStorage s' localStorage' :
  handleEvent event (s, localStorage) = Ok (s', localStorage') →
  (∀ slot, event ≠ SaveAsCustomButton slot) →
  customPresets s' = customPresets s.
Proof.
  destruct event as [panels | visible | presetName | presetName | axis value
                     | | | panel | axis value]; simpl; intros Hrun Hne;
    try (by injection Hrun as <- _).
  - destruct (applyPreset lit presetName s) as [s1|] eqn:H1; [| done].
    simpl in Hrun. injection Hrun as <- _.
    exact (applyPreset_customPresets _ _ _ H1).
  - by destruct (Hne presetName).
  - destruct (handleRotationChange axis value s) as [s1|] eqn:H1; [| done].
    simpl in Hrun. injection Hrun as <- _.
    exact (handleRotationChange_customPresets _ _ _ _ H1).
  - destruct (panelSlider (selectedPanel s) axis value s) as [s1|] eqn:H1;
      [| done].
    simpl in Hrun. injection Hrun as <- _.
    exact (handlePanelRotationChange_customPresets _ _ _ _ _ H1).
Qed.

(** What an event writes. *)
Lemma handle_storage event s localStorage s' localStorage' :
  handleEvent event (s, localStorage) = Ok (s', localStorage') →
  localStorage' =
  match event with
  | SaveAsCustomButton _ => saveCustomPresets JSON_stringify s' localStorage
  | SavePanelPositionsButton =>
      savePanelRotations JSON_stringify s localStorage
  | _ => localStorage
  end.
Proof.
  destruct event as [panels | visible | presetName | presetName | axis value
                     | | | panel | axis value]; simpl; intros Hrun;
    try (by injection Hrun as _ <-).
  - destruct (applyPreset lit presetName s); [| done].
    by injection Hrun as _ <-.
  - destruct (saveAsCustom presetName s); [| done].
    simpl in Hrun. by injection Hrun as <- <-.
  - destruct (handleRotationChange axis value s); [| done].
    by injection Hrun as _ <-.
  - destruct (panelSlider (selectedPanel s) axis value s); [| done].
    by injection Hrun as _ <-.
Qed.

Lemma event_is_save (event : Event (num:=num)) :
  (∃ slot, event = SaveAsCustomButton slot) ∨
  (∀ slot, event ≠ SaveAsCustomButton slot).
Proof. destruct event; eauto. Qed.

Lemma run_cons_Ok event rest s localStorage s' localStorage' :
  runEvents (event :: rest) (s, localStorage) = Ok (s', localStorage') →
  ∃ s1 localStorage1,
    handleEvent event (s, localStorage) = Ok (s1, localStorage1) ∧
    runEvents rest (s1, localStorage1) = Ok (s', localStorage').
Proof.
  cbn [run].
  destruct (handleEvent event (s, localStorage)) as [[s1 localStorage1] |];
    [| done].
  simpl. intros Hrest. by exists s1, localStorage1.
Qed.

(** X19. The mount never throws, and it leaves in the storage the text of
    the custom presets that are in memory after it, whatever was stored
    for them: a stored text that does not parse is replaced by the text
    of the default presets.  No other key of the storage is written. *)
Theorem mount_stores_presets_in_memory (localStorage : Storage) :
  ∃ s localStorage',
    mounted localStorage = Ok (s, localStorage') ∧
    localStorage' !! "issCustomViewPresets" =
      Some (JSON_stringify (customPresets s)) ∧
    (∀ k, k ≠ "issCustomViewPresets" →
          localStorage' !! k = localStorage !! k) ∧
    (∀ saved e,
       localStorage !! "issCustomViewPresets" = Some saved →
       JSON_parse saved = Throw e →
       localStorage' !! "issCustomViewPresets" =
         Some (JSON_stringify (customPresets (initialState lit)))).
Proof.
  unfold mount, load.
  destruct (loadCustomPresets_Ok falsy JSON_parse localStorage
              (initialState lit)) as (s1 & -> & _ & Hbad & _).
  simpl.
  destruct (loadPanelRotations_Ok falsy JSON_parse localStorage s1)
    as (s2 & -> & Hcustom & _).
  simpl. eexists _, _. split; [done |]. unfold saveCustomPresets.
  split_and!.
  - by rewrite lookup_insert_eq.
  - intros k Hne. by rewrite !lookup_insert_ne.
  - intros saved e Hsaved Hthrow. rewrite lookup_insert_eq.
    by rewrite Hcustom, (Hbad saved e).
Qed.

(** X20. Once the stored text of the custom presets is the text of the
    presets in memory, it stays so through every run of events: the
    handler that replaces the presets is followed by the effect that
    stores them, and no other handler touches either. *)
Theorem autosave_keeps_presets_stored events s localStorage s' localStorage' :
  localStorage !! "issCustomViewPresets" =
    Some (JSON_stringify (customPresets s)) →
  run lit falsy JSON_stringify events (s, localStorage) =
    Ok (s', localStorage') →
  localStorage' !! "issCustomViewPresets" =
    Some (JSON_stringify (customPresets s')).
Proof.
  revert s localStorage. induction events as [|event rest IH];
    intros s localStorage Hsync Hrun.
  { by injection Hrun as <- <-. }
  apply run_cons_Ok in Hrun as (s1 & localStorage1 & Hstep & Hrest).
  apply (IH s1 localStorage1); [| done].
  pose proof (handle_storage _ _ _ _ _ Hstep) as ->.
  destruct (event_is_save event) as [[slot ->] | Hne].
  - unfold saveCustomPresets. by rewrite lookup_insert_eq.
  - rewrite (handle_customPresets _ _ _ _ _ Hstep) by done.
    destruct event as [| | | slot | | | | |]; try done.
    + by destruct (Hne slot).
    + unfold savePanelRotations. by rewrite lookup_insert_ne.
Qed.

(** X21. What a run of events writes: nothing but the two keys of the
    component; the key of the panel rotations only when the button that
    saves the panel positions is among the events, and the key of the
    custom presets only when a button that saves a custom view is. *)
Theorem events_write_only_their_keys events s localStorage s' localStorage' :
  run lit falsy JSON_stringify events (s, localStorage) =
    Ok (s', localStorage') →
  (∀ k, k ≠ "issCustomViewPresets" → k ≠ "issPanelRotations" →
        localStorage' !! k = localStorage !! k) ∧
  (SavePanelPositionsButton ∉ events →
   localStorage' !! "issPanelRotations" =
   localStorage !! "issPanelRotations") ∧
  ((∀ slot, SaveAsCustomButton slot ∉ events) →
   localStorage' !! "issCustomViewPresets" =
   localStorage !! "issCustomViewPresets").
Proof.
  revert s localStorage. induction events as [|event rest IH];
    intros s localStorage Hrun.
  { by injection Hrun as <- <-. }
  apply run_cons_Ok in Hrun as (s1 & localStorage1 & Hstep & Hrest).
  destruct (IH s1 localStorage1 Hrest) as (Hother & Hpanels & Hpresets).
  pose proof (handle_storage _ _ _ _ _ Hstep) as Hwritten.
  split_and!.
  - intros k Hk1 Hk2. rewrite Hother by done. rewrite Hwritten.
    destruct event; try done.
    + unfold saveCustomPresets. by rewrite lookup_insert_ne.
    + unfold savePanelRotations. by rewrite lookup_insert_ne.
  - rewrite not_elem_of_cons. intros [Hne Hnin].
    rewrite Hpanels by done. rewrite Hwritten.
    destruct event; try done.
    unfold saveCustomPresets. by rewrite lookup_insert_ne.
  - intros Hnone. rewrite Hpresets.
    2:{ intros slot Hin. apply (Hnone slot). by right. }
    rewrite Hwritten. destruct event as [| | | slot | | | | |]; try done.
    + destruct (Hnone slot). left.
    + unfold savePanelRotations. by rewrite lookup_insert_ne.
Qed.

(** X22. Saved panel positions are loaded and then lost.  On a storage
    to which the panel rotations have been saved, the mount puts them
    back into memory, provided the runtime reads back what it wrote for
    them and wrote some text at all.  The discovery callback, which the
    adapter calls once the asset is there, then replaces them: whatever
    was saved, the map holds (0,0,0) for each delivered name and nothing
    else.  The saved text stays in the storage. *)
Theorem saved_panel_rotations_lost_at_discovery
    s (localStorage : Storage) :
  JSON_stringify (panelRotations s) ≠ EmptyString →
  JSON_parse (JSON_stringify (panelRotations s)) = Ok (panelRotations s) →
  ∃ s' localStorage',
    mounted (savePanelRotations JSON_stringify s localStorage) =
      Ok (s', localStorage') ∧
    panelRotations s' = panelRotations s ∧
    localStorage' !! "issPanelRotations" =
      Some (JSON_stringify (panelRotations s)) ∧
    ∀ panels,
      handleEvent (PanelsFound panels) (s', localStorage') =
        Ok (handlePanelsFound lit panels s', localStorage') ∧
      ∀ panel,
        rotationOf panel (handlePanelsFound lit panels s') =
        if decide (panel ∈ panels) then Some zeros else None.
Proof.
  intros Hne Hback. unfold mount, load.
  destruct (loadCustomPresets_Ok falsy JSON_parse
              (savePanelRotations JSON_stringify s localStorage)
              (initialState lit)) as (s1 & -> & _).
  simpl.
  destruct (loadPanelRotations_Ok falsy JSON_parse
              (savePanelRotations JSON_stringify s localStorage) s1)
    as (s2 & -> & _ & _ & Hgood).
  simpl. eexists _, _. split; [done |].
  assert (savePanelRotations JSON_stringify s localStorage
            !! "issPanelRotations" =
          Some (JSON_stringify (panelRotations s))) as Hsaved.
  { unfold savePanelRotations. by rewrite lookup_insert_eq. }
  split_and!.
  - by apply (Hgood (JSON_stringify (panelRotations s))).
  - unfold saveCustomPresets. by rewrite !lookup_insert_ne.
  - intros panels. split; [done |]. intros panel.
    apply (handlePanelsFound_rotationOf lit).
Qed.

(** X23. Custom views survive a reload: when the storage holds the text
    of custom presets of the declared type, the mount puts them back into
    memory and leaves their text in the storage, although it stores the
    default presets in between; provided the runtime reads back what it
    wrote for them and wrote some text at all. *)
Theorem stored_presets_survive_remount s (localStorage : Storage) :
  wellTyped s →
  localStorage !! "issCustomViewPresets" =
    Some (JSON_stringify (customPresets s)) →
  JSON_stringify (customPresets s) ≠ EmptyString →
  JSON_parse (JSON_stringify (customPresets s)) = Ok (customPresets s) →
  ∃ s' localStorage',
    mounted localStorage = Ok (s', localStorage') ∧
    customPresets s' = customPresets s ∧
    localStorage' !! "issCustomViewPresets" =
    localStorage !! "issCustomViewPresets".
Proof.
  intros (_ & (properties & Hcustom & (r1 & Hr1 & Hrot1) & (r2 & Hr2 & Hrot2))
          & _) Hstored Hne Hback.
  unfold mount, load.
  destruct (loadCustomPresets_Ok falsy JSON_parse localStorage
              (initialState lit)) as (s1 & -> & _ & _ & Hgood).
  simpl.
  destruct (loadPanelRotations_Ok falsy JSON_parse localStorage s1)
    as (s2 & -> & Hsame & _).
  simpl. eexists _, _. split; [done |].
  assert (customPresets s2 = customPresets s) as Hloaded.
  { rewrite Hsame, (Hgood _ _ Hstored Hne Hback).
    unfold hasBothCustomPresets. rewrite Hcustom. simpl.
    rewrite Hr1, Hr2. simpl.
    by rewrite (isRotation_truthy r1), (isRotation_truthy r2). }
  split; [done |]. unfold saveCustomPresets.
  by rewrite lookup_insert_eq, Hloaded, Hstored.
Qed.

(** X24. A custom view is replaced by its own save button only: through
    a run of events that does not press it, from a state of the declared
    types, the slot holds what it held. *)
Theorem custom_preset_kept_by_other_events
    (slot : CustomName) events s localStorage s' localStorage' :
  wellTyped s →
  SaveAsCustomButton slot ∉ events →
  runEvents events (s, localStorage) = Ok (s', localStorage') →
  own_prop (customPresets s') (key slot) =
  own_prop (customPresets s) (key slot).
Proof.
  revert s localStorage. induction events as [|event rest IH];
    intros s localStorage Hs Hnin Hrun.
  { by injection Hrun as <- <-. }
  apply not_elem_of_cons in Hnin as [Hne Hnin].
  apply run_cons_Ok in Hrun as (s1 & localStorage1 & Hstep & Hrest).
  destruct (handle_wellTyped event s localStorage Hs)
    as (s1' & localStorage1' & Hstep' & Hs1).
  rewrite Hstep in Hstep'. injection Hstep' as <- <-.
  rewrite (IH s1 localStorage1 Hs1 Hnin Hrest).
  destruct (event_is_save event) as [[other ->] | Hnone].
  - destruct Hs as ((a & b & c & Hrot) & (properties & Hcustom & _) & _).
    simpl in Hstep. unfold saveAsCustom in Hstep.
    rewrite Hrot, Hcustom in Hstep. simpl in Hstep.
    injection Hstep as <- _. simpl. rewrite Hcustom. simpl.
    apply rec_get_set_ne. destruct other, slot; done.
  - f_equal. by apply (handle_customPresets _ _ _ _ _ Hstep).
Qed.

(** X25. The mount takes stored presets for good when both fields are
    truthy, whatever else they are.  When a field is a number, its preset
    button makes that number the model rotation, and the next move of a
    rotation slider throws a [TypeError]: a number cannot be spread. *)
Theorem stored_number_preset_stops_the_sliders
    (slot : CustomName) (n : num) axis value
    (localStorage : Storage) saved (parsed : Value) :
  localStorage !! "issCustomViewPresets" = Some saved →
  saved ≠ EmptyString →
  JSON_parse saved = Ok parsed →
  hasBothCustomPresets falsy parsed = true →
  own_prop parsed (key slot) = Some (JNum n) →
  ∃ s localStorage',
    mounted localStorage = Ok (s, localStorage') ∧
    customPresets s = parsed ∧
    runEvents [PresetButton (custom slot)] (s, localStorage') =
      Ok (setActivePreset (view (custom slot))
            (setModelRotation (JNum n) s), localStorage') ∧
    runEvents [PresetButton (custom slot); RotationSlider axis value]
      (s, localStorage') = Throw TypeError.
Proof.
  intros Hstored Hne Hparse Hboth Hslot. unfold mount, load.
  destruct (loadCustomPresets_Ok falsy JSON_parse localStorage
              (initialState lit)) as (s1 & -> & _ & _ & Hgood).
  simpl.
  destruct (loadPanelRotations_Ok falsy JSON_parse localStorage s1)
    as (s2 & -> & Hsame & _).
  simpl. eexists _, _. split; [done |].
  assert (customPresets s2 = parsed) as Hloaded.
  { by rewrite Hsame, (Hgood _ _ Hstored Hne Hparse), Hboth. }
  split; [done |]. unfold applyPreset. rewrite Hloaded.
  destruct parsed as [| | | | | |properties]; try done.
  simpl in Hslot. simpl. rewrite Hslot. done.
Qed.
End Handlers.

End SceneFacts.

(** * Facts about the two components together *)

Module AppFacts.
Import JS Model Scene App JSFacts ModelFacts SceneFacts.

Section Props.
Context {num : Type}.
Variable add : num → num → num.
Variable degToRad : num → num.
Variable lit : Z → num.
Variable falsy : num → bool.

Abbreviation Value := (JSValue num).
Abbreviation rotated := (rotateFromOriginal add degToRad).

Lemma rec_get_of_elem {V} (r : record V) k v :
  NoDup (rec_keys r) → (k, v) ∈ r → rec_get k r = Some v.
Proof.
  induction r as [|[k' v'] r IH]; [by intros _ ?%elem_of_nil |].
  rewrite rec_keys_cons, NoDup_cons, elem_of_cons. simpl.
  intros [Hnin Hnd] [[= -> ->] | Hin].
  - by rewrite decide_True.
  - rewrite decide_False; [by apply IH |]. intros ->. apply Hnin.
    unfold rec_keys. by apply (list_elem_of_fmap_2 fst _ (k, v)).
Qed.

(** A map of rotations, as the adapter receives it: the same names in the
    same order, each with the three numbers of its rotation. *)
Lemma asRotations_of_rotations (properties : record Value) :
  NoDup (rec_keys properties) →
  (∀ k r, rec_get k properties = Some r → isRotation r) →
  ∃ rotations,
    asRotations (JObj properties) = Some rotations ∧
    rec_keys rotations = rec_keys properties ∧
    ∀ k a b c,
      rec_get k properties = Some (JArr [JNum a; JNum b; JNum c]) →
      rec_get k rotations = Some (a, b, c).
Proof.
  induction properties as [|[k v] rest IH].
  { intros _ _. by exists []. }
  rewrite rec_keys_cons, NoDup_cons. intros [Hnin Hnd] Htyped.
  destruct IH as (rotations & Hrest & Hkeys & Hget); [done | |].
  { intros k' r Hr. apply (Htyped k'). simpl.
    rewrite decide_False; [done |]. intros ->. apply Hnin.
    apply rec_get_is_Some. eauto. }
  destruct (Htyped k v) as (a & b & c & ->).
  { simpl. by rewrite decide_True. }
  simpl in Hrest. simpl. rewrite Hrest. simpl.
  eexists. split; [done |]. split.
  - by rewrite !rec_keys_cons, Hkeys.
  - intros k' a' b' c'. simpl. case_decide; [by intros [= -> -> ->] |].
    apply Hget.
Qed.

(** The third effect on a map of rotations whose names are names of
    discovered panels: no exception, and each object where the request
    of its name puts it. *)
Lemma render_discovered (scene : SceneGraph (num:=num))
    (properties : record Value) (s : State (num:=num)) objects :
  panelRotations s = JObj properties →
  NoDup (rec_keys properties) →
  (∀ k r, rec_get k properties = Some r → isRotation r) →
  (∀ k, k ∈ rec_keys properties → k ∈ panelsFound scene) →
  ∃ shown,
    renderPanelRotations add degToRad (discover scene).2 s objects =
      Some (shown, None) ∧
    (∀ k j a b c,
       rec_get k (discover scene).2 = Some j →
       rec_get k properties = Some (JArr [JNum a; JNum b; JNum c]) →
       shown !! j = rotated (a, b, c) <$> objects !! j) ∧
    (∀ j, (∀ k, rec_get k (discover scene).2 ≠ Some j) →
          shown !! j = objects !! j).
Proof.
  intros Hmap Hnd Htyped Hfound.
  destruct (asRotations_of_rotations properties Hnd Htyped)
    as (rotations & Hrotations & Hkeys & Hread).
  unfold renderPanelRotations. rewrite Hmap, Hrotations. simpl.
  destruct (effect_of_own_names add degToRad (discover scene).2 rotations
              objects) as [Hnone Hall].
  { intros k. rewrite Hkeys. apply Hfound. }
  pose proof (effect_lookup add degToRad (discover scene).2 rotations
                objects) as Hlookup.
  rewrite Hall in Hlookup.
  destruct (applyPanelRotations add degToRad (discover scene).2 rotations
              objects) as [shown e].
  simpl in Hnone, Hlookup. subst e. exists shown. split_and!; [done | |].
  - intros k j a b c Hj Hk. rewrite Hlookup.
    rewrite (lastRequest_of_name _ rotations k j (a, b, c)); [done | | | |].
    + apply discoverObjects_values_NoDup.
    + by rewrite Hkeys.
    + done.
    + by apply Hread.
  - intros j Hfree. rewrite Hlookup.
    destruct (lastRequest (discover scene).2 rotations j) as [r|] eqn:Hlast;
      [| done].
    apply lastRequest_Some_bound in Hlast as (k & _ & Hk).
    by destruct (Hfree k).
Qed.

Lemma zeroRotations_discovered (scene : SceneGraph (num:=num)) :
  NoDup (rec_keys (zeroRotations lit (panelsFound scene))) ∧
  (∀ k r, rec_get k (zeroRotations lit (panelsFound scene)) = Some r →
          isRotation r) ∧
  (∀ k, k ∈ rec_keys (zeroRotations lit (panelsFound scene)) →
        k ∈ panelsFound scene).
Proof.
  rewrite (zeroRotations_keys lit (λ _, Throw SyntaxError)). split_and!.
  - apply NoDup_firstOccurrences.
  - apply zeroRotations_typed.
  - intros k. by rewrite elem_of_firstOccurrences.
Qed.

(** X26. From the slider to the pose, and back.  After discovery has
    reported its names, a move of a slider of a discovered panel yields
    a rotation map on which the rotation effect, without an exception,
    puts the object of that panel at its original rotation plus the
    value of the slider on its axis (and plus the radians of 0 on the
    two others), puts the object of every other discovered name at its
    original rotation plus the radians of 0, and leaves every other
    object of the asset as it is.  The pose lasts until the discovery
    callback is called again, which the adapter does after each render
    of the controller: the callback rebuilds the all-zero map, on which
    the effect puts the object of every discovered name, that of the
    panel included, at its original rotation plus the radians of 0. *)
Theorem slider_value_lasts_until_rediscovery
    (scene : SceneGraph (num:=num)) panel i axis value
    (s0 : State (num:=num)) :
  rec_get panel (discover scene).2 = Some i →
  ∃ s shown shown',
    handlePanelRotationChange lit falsy panel axis value
      (handlePanelsFound lit (panelsFound scene) s0) = Ok s ∧
    renderPanelRotations add degToRad (discover scene).2 s
      (discover scene).1 = Some (shown, None) ∧
    shown !! i =
      rotated match axis with
              | axisX => (value, lit 0, lit 0)
              | axisY => (lit 0, value, lit 0)
              | axisZ => (lit 0, lit 0, value)
              end <$> (discover scene).1 !! i ∧
    (∀ other j,
       other ≠ panel → rec_get other (discover scene).2 = Some j →
       shown !! j =
       rotated (lit 0, lit 0, lit 0) <$> (discover scene).1 !! j) ∧
    (∀ j, (∀ k, rec_get k (discover scene).2 ≠ Some j) →
          shown !! j = (discover scene).1 !! j) ∧
    renderPanelRotations add degToRad (discover scene).2
      (handlePanelsFound lit (panelsFound scene) s) shown =
      Some (shown', None) ∧
    (∀ k j,
       rec_get k (discover scene).2 = Some j →
       shown' !! j =
       rotated (lit 0, lit 0, lit 0) <$> (discover scene).1 !! j).
Proof.
  intros Hi.
  assert (∀ k j, rec_get k (discover scene).2 = Some j →
                 k ∈ panelsFound scene) as Hfound.
  { intros k j Hk. unfold panelsFound. apply rec_get_is_Some. eauto. }
  pose proof (Hfound panel i Hi) as Hin.
  destruct (zeroRotations_discovered scene) as (Hnd0 & Htyped0 & Hfound0).
  unfold handlePanelRotationChange. simpl.
  rewrite (zeroRotations_get lit), decide_True by done. simpl.
  rewrite (zeroRotations_get lit), decide_True by done. simpl.
  set (moved := JArr (set_index (index axis) (JNum value) _)).
  set (properties := rec_set panel moved _).
  assert (∀ k, rec_get k properties =
               if decide (k = panel) then Some moved
               else if decide (k ∈ panelsFound scene)
                    then Some (rotationArray lit 0 0 0) else None) as Hget.
  { intros k. unfold properties. case_decide as Hk.
    - subst k. apply rec_get_set_eq.
    - rewrite rec_get_set_ne by done. apply (zeroRotations_get lit). }
  assert (moved = JArr match axis with
                       | axisX => [JNum value; JNum (lit 0); JNum (lit 0)]
                       | axisY => [JNum (lit 0); JNum value; JNum (lit 0)]
                       | axisZ => [JNum (lit 0); JNum (lit 0); JNum value]
                       end) as Hmoved by (by destruct axis).
  set (s := setPanelRotations (JObj properties) _).
  destruct (render_discovered scene properties s (discover scene).1)
    as (shown & Hshown & Hbound & Hfree).
  { done. }
  { by apply rec_keys_set_NoDup. }
  { intros k r. rewrite Hget. repeat case_decide; [| | done].
    - intros [= <-]. rewrite Hmoved. destruct axis; by eexists _, _, _.
    - intros [= <-]. by eexists _, _, _. }
  { intros k [r Hr]%rec_get_is_Some. rewrite Hget in Hr.
    repeat case_decide; by simplify_eq. }
  destruct (render_discovered scene (zeroRotations lit (panelsFound scene))
              (handlePanelsFound lit (panelsFound scene) s) shown)
    as (shown' & Hshown' & Hbound' & _); [done.. |].
  assert (shown !! i =
          rotated match axis with
                  | axisX => (value, lit 0, lit 0)
                  | axisY => (lit 0, value, lit 0)
                  | axisZ => (lit 0, lit 0, value)
                  end <$> (discover scene).1 !! i) as Hpanel.
  { destruct axis; apply (Hbound panel); try done;
      by rewrite Hget, decide_True, Hmoved. }
  exists s, shown, shown'. split_and!; [done.. | | done | done |].
  - intros other j Hne Hj. apply (Hbound other); [done |].
    rewrite Hget, decide_False, decide_True; eauto.
  - intros k j Hj.
    rewrite (Hbound' k j (lit 0) (lit 0) (lit 0) Hj).
    2:{ rewrite (zeroRotations_get lit), decide_True; eauto. }
    destruct (decide (k = panel)) as [-> | Hne].
    + assert (j = i) as -> by congruence.
      rewrite Hpanel.
      destruct ((discover scene).1 !! i); simpl; [| done].
      by rewrite rotateFromOriginal_absorb.
    + rewrite (Hbound k j (lit 0) (lit 0) (lit 0) Hj).
      2:{ rewrite Hget, decide_False, decide_True; eauto. }
      destruct ((discover scene).1 !! j); simpl; [| done].
      by rewrite rotateFromOriginal_absorb.
Qed.

(** X27. From the reset button to the pose.  While the panel list is the
    list discovery reported, the map the reset button builds puts every
    discovered panel whose original rotation is captured back at that
    rotation, wherever the sliders had put it, provided the radians of 0
    are a neutral addend. *)
Theorem reset_button_restores_the_panels
    (scene : SceneGraph (num:=num)) panel i (s : State (num:=num))
    objects object original :
  (∀ v, add v (degToRad (lit 0)) = v) →
  panelList s = panelsFound scene →
  rec_get panel (discover scene).2 = Some i →
  objects !! i = Some object →
  originalRotation object = Some original →
  ∃ shown shown',
    renderPanelRotations add degToRad (discover scene).2
      (resetAllPanelRotations lit s) objects = Some (shown, None) ∧
    shown !! i = Some shown' ∧
    rotation shown' = original ∧
    originalRotation shown' = Some original.
Proof.
  intros Hneutral Hlist Hi Hobject Horiginal.
  assert (panel ∈ panelsFound scene) as Hin.
  { unfold panelsFound. apply rec_get_is_Some. eauto. }
  destruct (zeroRotations_discovered scene) as (Hnd0 & Htyped0 & Hfound0).
  destruct (render_discovered scene (zeroRotations lit (panelsFound scene))
              (resetAllPanelRotations lit s) objects)
    as (shown & Hshown & Hbound & _); [| done.. |].
  { unfold resetAllPanelRotations. by rewrite Hlist. }
  exists shown. eexists. split; [done |].
  rewrite (Hbound panel i (lit 0) (lit 0) (lit 0) Hi).
  2:{ by rewrite (zeroRotations_get lit), decide_True. }
  rewrite Hobject. simpl. split; [done |].
  unfold rotateFromOriginal. rewrite Horiginal. simpl.
  rewrite !Hneutral. by destruct original.
Qed.
End Props.

End AppFacts.

(** * The properties at the sample inputs *)

Module Scenarios.
Import JS JSFacts Model Scene App Samples ModelFacts SceneFacts AppFacts.

(** The second traversal on [hull]: no name tells a panel, the three meshes
    are reported as Panel_0, Panel_1, Panel_2. *)
Lemma fallback_on_hull :
  (∀ object, object ∈ traverse (hull origin) → ¬ qualifies (name object)) ∧
  panelsFound (hull origin) = ["Panel_0"; "Panel_1"; "Panel_2"] ∧
  (discover (hull origin)).2 =
    [("Panel_0", 1); ("Panel_1", 2); ("Panel_2", 4)].
Proof.
  assert (∀ object, object ∈ traverse (hull origin) →
                    ¬ qualifies (name object)) as Hnone.
  { intros object Hin. apply isPanelName_not_qualifies. revert object Hin.
    apply Forall_forall. repeat constructor. }
  split; [exact Hnone |].
  destruct (fallback_reports_synthetic_names (hull origin) Hnone)
    as (Hnames & Hpanels & _).
  split; [exact Hnames | exact Hpanels].
Defined.

(** Discovery on the station: the two wings, in visiting order. *)
Lemma discovery_on_station :
  namesOf (traverse (station origin origin)) =
    ["Body"; "SolarWingLeft"; "SolarWingRight"; "Camera"] ∧
  panelsFound (station origin origin) = ["SolarWingLeft"; "SolarWingRight"].
Proof.
  split; [reflexivity |].
  destruct (discovery_reports_qualifying_names (station origin origin))
    as (_ & _ & _ & _ & Hscenario).
  apply Hscenario. reflexivity.
Defined.


(** SolarWingLeft, at rest at (1, 2, 3), with its X slider at 45. *)
Lemma left_wing_at_45 :
  ∃ panel',
    (applyPanelRotations Rplus degToRad stationPanels leftAt45
       stationCaptured).1 !! 1 = Some panel' ∧
    rotation panel' = mkEuler (1 + degToRad 45)%R 2%R 3%R.
Proof.
  destruct (panel_rotation_is_original_plus_request Rplus degToRad
              stationPanels leftAt45 stationCaptured "SolarWingLeft" 1
              (rotateFromOriginal Rplus degToRad (0, 0, 0)%R
                 (object "SolarWingLeft" "Mesh" (mkEuler 1%R 2%R 3%R)))
              (mkEuler 1%R 2%R 3%R) 45%R 0%R 0%R)
    as (panel' & Hlookup & _ & _ & _ & _ & Hzero).
  - apply discoverObjects_values_NoDup.
  - apply (NoDup_firstOccurrences ["SolarWingLeft"; "SolarWingRight"]).
  - reflexivity.
  - reflexivity.
  - reflexivity.
  - reflexivity.
  - exists panel'. split; [exact Hlookup |].
    apply (Hzero 0%R); [| reflexivity | reflexivity].
    intros v. unfold degToRad. lra.
Defined.

(** C1 fails as stated: a rotation of (45,0,0) held for SolarWingLeft does
    not survive a rediscovery of SolarWingLeft, it is reset to (0,0,0). *)
Lemma handlePanelsFound_resets_existing_rotation :
  rotationOf "SolarWingLeft" turned = Some (rotationArray literal 45 0 0) ∧
  rotationOf "SolarWingLeft"
    (handlePanelsFound literal ["SolarWingLeft"] turned) =
    Some (rotationArray literal 0 0 0) ∧
  ¬ keepsExistingRotations (num:=Z) literal.
Proof.
  split; [reflexivity |]. split; [reflexivity |].
  intros Hkeeps.
  specialize (Hkeeps ["SolarWingLeft"] turned "SolarWingLeft"
                (rotationArray literal 45 0 0)).
  assert (rotationOf "SolarWingLeft"
            (handlePanelsFound literal ["SolarWingLeft"] turned) =
          Some (rotationArray literal 45 0 0)) as Hwrong.
  { apply Hkeeps; [set_solver | reflexivity]. }
  discriminate Hwrong.
Qed.

(** Saving the view of the preset [panels] into custom1 and applying
    custom1. *)
Lemma save_then_apply_on_panels_view :
  ∃ s1 s2,
    saveAsCustom custom1 viewingPanels = Ok s1 ∧
    applyPreset literal (custom custom1) s1 = Ok s2 ∧
    modelRotation s2 = rotationArray literal 30 45 15 ∧
    activePreset s2 = view (custom custom1).
Proof.
  destruct (save_then_apply_restores literal custom1 viewingPanels
              [JNum 30%Z; JNum 45%Z; JNum 15%Z] eq_refl)
    as (s1 & s2 & Hsave & _ & Happly & Hrot & Hactive).
  exists s1, s2.
  split_and!; [exact Hsave | exact Happly | exact Hrot | exact Hactive].
Defined.

(** Loading from a storage whose two texts are not JSON. *)
Lemma load_corrupt_storage :
  ∃ s',
    load isZero parse corruptStorage (initialState literal) = Ok s' ∧
    customPresets s' = customPresets (initialState literal) ∧
    panelRotations s' = JObj [] ∧
    rotationOf "SolarWingLeft"
      (handlePanelsFound literal ["SolarWingLeft"; "SolarWingRight"] s') =
      Some (rotationArray literal 0 0 0).
Proof.
  destruct (load_keeps_defaults_on_malformed literal isZero parse
              corruptStorage (initialState literal))
    as (s' & Hload & Hcustom & Hrot).
  exists s'. split; [exact Hload |].
  destruct (Hrot malformedText SyntaxError eq_refl eq_refl)
    as (_ & Hempty & Hzero).
  split_and!.
  - apply (Hcustom malformedText SyntaxError); reflexivity.
  - by apply Hempty.
  - apply Hzero. set_solver.
Defined.

(** Loading from a storage with two presets and an array of rotations. *)
Lemma load_saved_storage :
  parse "" = Throw SyntaxError ∧
  ∃ s',
    load isZero parse savedStorage (initialState literal) = Ok s' ∧
    customPresets s' =
      JObj [("custom1", JArr [JNum 10%Z; JNum 20%Z; JNum 30%Z]);
            ("custom2", JArr [JNum 0%Z; JNum 90%Z; JNum 0%Z])] ∧
    panelRotations s' = JArr [JNum 10%Z; JNum 20%Z; JNum 30%Z].
Proof.
  split; [reflexivity |].
  destruct (load_applies_parsed_values isZero parse savedStorage
              (initialState literal) eq_refl)
    as (s' & Hload & Hcustom & Hrot).
  exists s'. split; [exact Hload |]. split.
  - exact (Hcustom bothPresetsText _ eq_refl eq_refl).
  - exact (Hrot "[10,20,30]" _ eq_refl eq_refl).
Defined.

(** ** The rotation effects *)

(** The all-zero map after the map with SolarWingLeft at 45 is the
    all-zero map alone. *)
Lemma reset_after_left_wing_at_45 :
  applyPanelRotations Rplus degToRad stationPanels allZero
    (applyPanelRotations Rplus degToRad stationPanels leftAt45
       (discover stationAtRest).1).1 =
  applyPanelRotations Rplus degToRad stationPanels allZero
    (discover stationAtRest).1.
Proof.
  apply (rotation_effect_overwrites Rplus degToRad stationPanels
           leftAt45 allZero (discover stationAtRest).1).
  intros k Hk. exact Hk.
Defined.

(** SolarWingLeft, fresh from the asset at (1, 2, 3). *)
Lemma left_wing_capture :
  ∃ object',
    (applyPanelRotations Rplus degToRad stationPanels leftAt45
       (discover stationAtRest).1).1 !! 1 = Some object' ∧
    originalRotation object' = Some (mkEuler 1%R 2%R 3%R).
Proof.
  destruct (original_rotation_captured_once Rplus degToRad stationPanels
              leftAt45 (discover stationAtRest).1 1
              (object "SolarWingLeft" "Mesh" (mkEuler 1%R 2%R 3%R)) eq_refl)
    as (object' & Hlookup & _ & Hcapture & _).
  exists object'. split; [exact Hlookup |].
  apply Hcapture; [reflexivity |].
  exists "SolarWingLeft". split; [| reflexivity].
  change ("SolarWingLeft" ∈ ["SolarWingLeft"; "SolarWingRight"]). left.
Defined.

(** SolarWingLeft turned to 45 and reset. *)
Lemma left_wing_put_back :
  rotation <$>
    (applyPanelRotations Rplus degToRad stationPanels allZero
       (applyPanelRotations Rplus degToRad stationPanels leftAt45
          stationCaptured).1).1 !! 1 = Some (mkEuler 1%R 2%R 3%R).
Proof.
  apply (zero_request_restores_original Rplus degToRad stationPanels
           leftAt45 allZero stationCaptured "SolarWingLeft" 1
           (rotateFromOriginal Rplus degToRad (0, 0, 0)%R
              (object "SolarWingLeft" "Mesh" (mkEuler 1%R 2%R 3%R)))
           (mkEuler 1%R 2%R 3%R) 0%R).
  - intros v. unfold degToRad. lra.
  - apply discoverObjects_values_NoDup.
  - apply (NoDup_firstOccurrences ["SolarWingLeft"; "SolarWingRight"]).
  - reflexivity.
  - reflexivity.
  - reflexivity.
  - reflexivity.
Defined.

(** The root SolarArray under a model rotation of (90, 0, 0) and a
    request of (10, 0, 0). *)
Lemma array_root_under_model_rotation :
  ∃ root',
    (applyPanelRotations Rplus degToRad [("SolarArray", 0)]
       [("SolarArray", (10, 0, 0)%R)]
       (nodes (applyModelRotation degToRad 0%R 1%R (90, 0, 0)%R arrayRoot))).1
      !! 0 = Some root' ∧
    originalRotation root' =
      Some (mkEuler (degToRad 90) (degToRad 0) (degToRad 0)) ∧
    rotation root' =
      mkEuler (degToRad 90 + degToRad 10)%R (degToRad 0 + degToRad 0)%R
        (degToRad 0 + degToRad 0)%R.
Proof.
  apply (root_panel_captures_model_rotation Rplus degToRad 0%R 1%R
           [("SolarArray", 0)] [("SolarArray", (10, 0, 0)%R)] arrayRoot
           "SolarArray" (object "SolarArray" "Group" (mkEuler 0%R 0%R 0%R))
           (90, 0, 0)%R (10, 0, 0)%R).
  - apply (NoDup_singleton 0).
  - apply (NoDup_singleton "SolarArray").
  - reflexivity.
  - reflexivity.
  - reflexivity.
  - reflexivity.
Defined.

(** ** The sliders *)

(** The Y slider at 90 on the view of the preset [panels]. *)
Lemma yaw_slider_on_panels_view :
  ∃ s',
    handleRotationChange axisY 90%Z viewingPanels = Ok s' ∧
    modelRotation s' = rotationArray literal 30 90 15 ∧
    activePreset s' = none.
Proof.
  destruct (handleRotationChange_sets_one_axis axisY 90%Z viewingPanels
              (JNum 30%Z) (JNum 45%Z) (JNum 15%Z) eq_refl)
    as (s' & Hrun & Hrot & Hactive & _).
  exists s'. split_and!; [exact Hrun | exact Hrot | exact Hactive].
Defined.

(** The X slider moved from 30 to 10 and back to 30 on the view of the
    preset [panels]. *)
Lemma pitch_away_and_back_on_panels_view :
  activePreset viewingPanels = view (fixed panels) ∧
  (s' ← handleRotationChange axisX 10%Z viewingPanels;
   handleRotationChange axisX 30%Z s') =
  Ok (setActivePreset none viewingPanels).
Proof.
  split; [reflexivity |].
  apply (slider_back_leaves_preset_cleared axisX 10%Z viewingPanels
           30%Z 45%Z 15%Z eq_refl).
  discriminate.
Defined.

(** X to 10 and Y to 20 in either order. *)
Lemma pitch_and_yaw_in_either_order :
  (s' ← handleRotationChange axisX 10%Z viewingPanels;
   handleRotationChange axisY 20%Z s') =
  (s' ← handleRotationChange axisY 20%Z viewingPanels;
   handleRotationChange axisX 10%Z s').
Proof.
  destruct (sliders_commute axisX axisY 10%Z 20%Z viewingPanels
              (JNum 30%Z) (JNum 45%Z) (JNum 15%Z) eq_refl)
    as [Hcommute _].
  apply Hcommute. discriminate.
Defined.

(** The Z slider of SolarWingLeft at 5, with its X at 45. *)
Lemma left_wing_roll_slider :
  ∃ s',
    handlePanelRotationChange literal isZero "SolarWingLeft" axisZ 5%Z
      turned = Ok s' ∧
    rotationOf "SolarWingLeft" s' = Some (rotationArray literal 45 0 5).
Proof.
  destruct (handlePanelRotationChange_sets_one_axis literal isZero
              "SolarWingLeft" axisZ 5%Z turned
              [("SolarWingLeft", rotationArray literal 45 0 0)] eq_refl)
    as (a & b & c & s' & Hold & Hrun & Hnew & _).
  - intros k r. simpl. case_decide; [| discriminate].
    intros [= <-]. by eexists _, _, _.
  - exists s'. split; [exact Hrun |].
    injection Hold as <- <- <-. exact Hnew.
Defined.

(** A number and [null] in the rotation map. *)
Lemma sliders_on_foreign_entries :
  handlePanelRotationChange literal isZero "SolarWingLeft" axisX 45%Z
    foreign = Throw TypeError ∧
  ∃ s',
    handlePanelRotationChange literal isZero "SolarWingRight" axisX 45%Z
      foreign = Ok s' ∧
    rotationOf "SolarWingRight" s' = Some (rotationArray literal 45 0 0).
Proof.
  split.
  - destruct (handlePanelRotationChange_on_foreign_entry literal isZero
                "SolarWingLeft" axisX 45%Z foreign
                [("SolarWingLeft", JNum 5%Z); ("SolarWingRight", JNull)]
                (JNum 5%Z) eq_refl eq_refl) as [Hthrow _].
    exact (Hthrow 5%Z eq_refl eq_refl).
  - destruct (handlePanelRotationChange_on_foreign_entry literal isZero
                "SolarWingRight" axisX 45%Z foreign
                [("SolarWingLeft", JNum 5%Z); ("SolarWingRight", JNull)]
                JNull eq_refl eq_refl) as [_ Hreplace].
    exact (Hreplace eq_refl).
Defined.

(** ** Sessions *)

(** The session runs through and ends in a state of the declared types. *)
Lemma session_keeps_declared_types :
  ∃ s' localStorage',
    run literal isZero stringify session (initialState literal, ∅) =
      Ok (s', localStorage') ∧
    wellTyped s'.
Proof.
  exact (events_keep_declared_types literal isZero stringify session
           (initialState literal) ∅ (wellTyped_initialState literal)).
Defined.

(** After the session the storage holds the text of the custom presets
    of the end. *)
Lemma session_presets_stored :
  run literal isZero stringify session (initialState literal, freshStorage) =
    Ok sessionEnd ∧
  sessionEnd.2 !! "issCustomViewPresets" =
    Some (stringify (customPresets sessionEnd.1)).
Proof.
  split; [reflexivity |].
  apply (autosave_keeps_presets_stored literal isZero stringify session
           (initialState literal) freshStorage sessionEnd.1 sessionEnd.2);
    reflexivity.
Defined.

(** Without the button that saves them, the session leaves no panel
    rotations in the storage. *)
Lemma unsaved_session_stores_no_panel_rotations :
  run literal isZero stringify unsavedSession
    (initialState literal, freshStorage) = Ok unsavedSessionEnd ∧
  unsavedSessionEnd.2 !! "issPanelRotations" =
    freshStorage !! "issPanelRotations".
Proof.
  assert (run literal isZero stringify unsavedSession
            (initialState literal, freshStorage) =
          Ok (unsavedSessionEnd.1, unsavedSessionEnd.2)) as Hrun
    by (reflexivity).
  split; [exact Hrun |].
  destruct (events_write_only_their_keys literal isZero stringify
              unsavedSession (initialState literal) freshStorage
              unsavedSessionEnd.1 unsavedSessionEnd.2 Hrun)
    as (_ & Hpanels & _).
  apply Hpanels. unfold unsavedSession. rewrite !not_elem_of_cons.
  split_and!; try discriminate. apply not_elem_of_nil.
Defined.

(** ** Reloads *)

(** The rotation map of [turned], saved, loaded again, and met by the
    discovery of the two wings. *)
Lemma turned_lost_at_discovery :
  ∃ s' localStorage',
    mount literal isZero reader stringify
      (savePanelRotations stringify turned freshStorage) =
      Ok (s', localStorage') ∧
    rotationOf "SolarWingLeft" s' = Some (rotationArray literal 45 0 0) ∧
    rotationOf "SolarWingLeft"
      (handlePanelsFound literal ["SolarWingLeft"; "SolarWingRight"] s') =
      Some (rotationArray literal 0 0 0) ∧
    localStorage' !! "issPanelRotations" = Some turnedText.
Proof.
  destruct (saved_panel_rotations_lost_at_discovery literal isZero reader
              stringify turned freshStorage)
    as (s' & localStorage' & Hmount & Hloaded & Hstored & Hfound).
  - discriminate.
  - reflexivity.
  - exists s', localStorage'. split; [exact Hmount |]. split_and!.
    + unfold rotationOf. rewrite Hloaded. reflexivity.
    + destruct (Hfound ["SolarWingLeft"; "SolarWingRight"]) as [_ Hzero].
      exact (Hzero "SolarWingLeft").
    + exact Hstored.
Defined.

(** The custom views of [keptViews], stored and loaded again. *)
Lemma kept_views_survive_remount :
  ∃ s' localStorage',
    mount literal isZero reader stringify
      {[ "issCustomViewPresets" := bothPresetsText ]} =
      Ok (s', localStorage') ∧
    customPresets s' = customPresets keptViews ∧
    localStorage' !! "issCustomViewPresets" = Some bothPresetsText.
Proof.
  destruct (stored_presets_survive_remount literal isZero reader stringify
              keptViews {[ "issCustomViewPresets" := bothPresetsText ]})
    as (s' & localStorage' & Hmount & Hcustom & Hstored).
  - split_and!.
    + by eexists _, _, _.
    + eexists. split; [reflexivity |].
      split; eexists; (split; [reflexivity | by eexists _, _, _]).
    + eexists. split; [reflexivity |]. intros panel r. discriminate.
  - reflexivity.
  - discriminate.
  - reflexivity.
  - exists s', localStorage'.
    split_and!; [exact Hmount | exact Hcustom | exact Hstored].
Defined.

(** The session leaves custom1 as it was. *)
Lemma session_keeps_custom1 :
  run literal isZero stringify session (keptViews, ∅) =
    Ok keptViewsSessionEnd ∧
  own_prop (customPresets keptViewsSessionEnd.1) "custom1" =
    Some (rotationArray literal 10 20 30).
Proof.
  split; [reflexivity |].
  apply (custom_preset_kept_by_other_events literal isZero stringify
           custom1 session keptViews ∅
           keptViewsSessionEnd.1 keptViewsSessionEnd.2).
  - split_and!.
    + by eexists _, _, _.
    + eexists. split; [reflexivity |].
      split; eexists; (split; [reflexivity | by eexists _, _, _]).
    + eexists. split; [reflexivity |]. intros panel r. discriminate.
  - unfold session. rewrite !not_elem_of_cons. split_and!; try discriminate.
    apply not_elem_of_nil.
  - reflexivity.
Defined.

(** Stored presets that are numbers: the button of custom1, then the X
    slider. *)
Lemma number_presets_stop_the_slider :
  ∃ s localStorage',
    mount literal isZero reader stringify
      {[ "issCustomViewPresets" := numbersText ]} = Ok (s, localStorage') ∧
    run literal isZero stringify
      [PresetButton (custom custom1); RotationSlider axisX 45%Z]
      (s, localStorage') = Throw TypeError.
Proof.
  destruct (stored_number_preset_stops_the_sliders literal isZero reader
              stringify custom1 1%Z axisX 45%Z
              {[ "issCustomViewPresets" := numbersText ]} numbersText
              (JObj [("custom1", JNum 1%Z); ("custom2", JNum 2%Z)]))
    as (s & localStorage' & Hmount & _ & _ & Hthrow).
  - reflexivity.
  - discriminate.
  - reflexivity.
  - reflexivity.
  - reflexivity.
  - exists s, localStorage'. split; [exact Hmount | exact Hthrow].
Defined.

(** ** From the slider to the pose *)

(** The X slider of SolarWingLeft at 45 on the station at rest. *)
Lemma left_wing_slider_at_45 :
  ∃ s shown shown',
    handlePanelRotationChange IZR isZeroR "SolarWingLeft" axisX 45%R
      (handlePanelsFound IZR (panelsFound stationAtRest) (initialState IZR))
      = Ok s ∧
    renderPanelRotations Rplus degToRad stationPanels s
      (discover stationAtRest).1 = Some (shown, None) ∧
    shown !! 1 =
      Some (rotateFromOriginal Rplus degToRad (45, 0, 0)%R
              (object "SolarWingLeft" "Mesh" (mkEuler 1%R 2%R 3%R))) ∧
    renderPanelRotations Rplus degToRad stationPanels
      (handlePanelsFound IZR (panelsFound stationAtRest) s) shown =
      Some (shown', None) ∧
    shown' !! 1 =
      Some (rotateFromOriginal Rplus degToRad (0, 0, 0)%R
              (object "SolarWingLeft" "Mesh" (mkEuler 1%R 2%R 3%R))).
Proof.
  destruct (slider_value_lasts_until_rediscovery Rplus degToRad IZR isZeroR
              stationAtRest "SolarWingLeft" 1 axisX 45%R (initialState IZR)
              eq_refl)
    as (s & shown & shown' & Hrun & Hshown & Hleft & _ & _ & Hagain & Hzero).
  exists s, shown, shown'.
  split_and!; [exact Hrun | exact Hshown | exact Hleft | exact Hagain |].
  exact (Hzero "SolarWingLeft" 1 eq_refl).
Defined.

(** SolarWingLeft, turned to 45, under the reset button. *)
Lemma left_wing_under_reset_button :
  ∃ shown shown',
    renderPanelRotations Rplus degToRad stationPanels
      (resetAllPanelRotations IZR
         (handlePanelsFound IZR (panelsFound stationAtRest)
            (initialState IZR)))
      (applyPanelRotations Rplus degToRad stationPanels leftAt45
         stationCaptured).1 = Some (shown, None) ∧
    shown !! 1 = Some shown' ∧
    rotation shown' = mkEuler 1%R 2%R 3%R ∧
    originalRotation shown' = Some (mkEuler 1%R 2%R 3%R).
Proof.
  apply (reset_button_restores_the_panels Rplus degToRad IZR
           stationAtRest "SolarWingLeft" 1
           (handlePanelsFound IZR (panelsFound stationAtRest)
              (initialState IZR))
           (applyPanelRotations Rplus degToRad stationPanels leftAt45
              stationCaptured).1
           (rotateFromOriginal Rplus degToRad (45, 0, 0)%R
              (rotateFromOriginal Rplus degToRad (0, 0, 0)%R
                 (object "SolarWingLeft" "Mesh" (mkEuler 1%R 2%R 3%R))))
           (mkEuler 1%R 2%R 3%R)).
  - intros v. unfold degToRad. lra.
  - reflexivity.
  - reflexivity.
  - reflexivity.
  - reflexivity.
Defined.

End Scenarios.
